(** * STLCost: mip-chain generation over three storage strategies

    A shallow embedding of [main.cpp]: the [size_t] arithmetic of the
    mip-level addressing ([TotalPixelsMipped], [TotalChannelsMipped],
    [NumMips], [GetMipInfo]), the box-filter step [MakeMip], the driver
    [MakeMips] and the initialiser [InitImage], written once over an
    abstract indexable storage (the C++ template parameter [T]) and
    instantiated at [std::array], [std::vector] and a [malloc]'d C array.

    The first part holds the definitions, the second part the lemmas and
    the properties of the program. *)

From Stdlib Require Import NArith ZArith Lia List.
From Stdlib Require Import Floats.SpecFloat.
From stdpp Require Import base tactics option list numbers.

Local Open Scope N_scope.

(** * Part 1: the program *)

(** ** [size_t]: 64-bit unsigned integers with wrap-around *)

Module SizeT.
Definition modulus : N := 2 ^ 64.
Definition wrap (n : N) : N := n mod modulus.
Definition add (a b : N) : N := wrap (a + b).
Definition mul (a b : N) : N := wrap (a * b).
(** [a - b] on unsigned operands: [0 - 1] is [2^64 - 1]. *)
Definition sub (a b : N) : N := wrap (a + modulus - wrap b).
End SizeT.

Infix "+!" := SizeT.add (at level 50, left associativity) : N_scope.
Infix "*!" := SizeT.mul (at level 40, left associativity) : N_scope.
Infix "-!" := SizeT.sub (at level 50, left associativity) : N_scope.

(** ** [float]: IEEE-754 binary32, round to nearest even *)

(** [typedef float ChannelType;] *)
Definition ChannelType : Type := spec_float.

Module F32.
Definition prec : Z := 24.
Definition emax : Z := 128.
Definition add : ChannelType -> ChannelType -> ChannelType := SFadd prec emax.
Definition div : ChannelType -> ChannelType -> ChannelType := SFdiv prec emax.
(** Conversion of an unsigned integer, as in [float(n)]. *)
Definition of_N (n : N) : ChannelType :=
  binary_normalize prec emax (Z.of_N n) 0 false.
(** The all-zero bit pattern that [memset] leaves behind: [+0.0f]. *)
Definition zero : ChannelType := S754_zero false.
(** The literal [4.0f]. *)
Definition four : ChannelType := of_N 4.
(** [0.5f] as mantissa and exponent, and [n / 2] for an integer [n]. *)
Definition half : ChannelType := S754_finite false 8388608 (-24).
Definition halves (n : positive) : ChannelType :=
  binary_normalize prec emax (Zpos n) (-1) false.
End F32.

(** [sizeof(float)] *)
Definition sizeof_float : N := 4.

(** ** Loops that halve a [size_t] until it is zero

    [while (size) { body; size /= 2; }]: dividing by two drops the lowest
    binary digit of [size], so the loop is structural on the digits. *)

Fixpoint halving_loop {A : Type} (body : N -> A -> A) (size : positive) (acc : A) : A :=
  let acc' := body (Npos size) acc in
  match size with
  | xH => acc'
  | xO half | xI half => halving_loop body half acc'
  end.

Definition while_halving {A : Type} (body : N -> A -> A) (size : N) (acc : A) : A :=
  match size with
  | 0 => acc
  | Npos p => halving_loop body p acc
  end.

(** ** Mip-level addressing *)

Section Addressing.
(** The value the macro [IMAGE_SIZE()] expands to. *)
Variable IMAGE_SIZE : N.

Definition TotalPixelsMipped : N :=
  while_halving (fun size ret => ret +! size *! size) (SizeT.wrap IMAGE_SIZE) 0.

Definition TotalChannelsMipped : N := TotalPixelsMipped *! 4.

Definition NumMips : N :=
  while_halving (fun _ ret => ret +! 1) (SizeT.wrap IMAGE_SIZE) 0.

(** Returns the pair of out-parameters [(offset, width)]. *)
Definition GetMipInfo (desiredMipIndex : N) : N * N :=
  N.iter desiredMipIndex
    (fun '(offset, width) => (offset +! width *! width *! 4, width / 2))
    (0, SizeT.wrap IMAGE_SIZE).
End Addressing.

(** The configured image size, [#define IMAGE_SIZE() 512]. *)
Definition IMAGE_SIZE : N := 512.

(** ** Storage: what the templates ask of their parameter [T]

    [MakeMip], [MakeMips] and [InitImage] use [image] only through
    [image[i]], as an rvalue and as the target of an assignment.  An
    index outside the object is undefined behaviour in C++ for all three
    containers; here it is the error result [None].  [contents] is the
    sequence of channel values the storage holds. *)

Class Storage (T : Type) := {
  contents : T -> list ChannelType;
  load : T -> N -> option ChannelType;
  store : T -> N -> ChannelType -> option T
}.

(** A storage behaves as the sequence it holds. *)
Class StorageLaws (T : Type) `{Storage T} := {
  load_contents : forall t i, load t i = contents t !! N.to_nat i;
  store_contents : forall t i v,
    contents <$> store t i v =
    if decide (N.to_nat i < length (contents t))%nat
    then Some (<[N.to_nat i := v]> (contents t)) else None
}.

(** ** The execution monad: storage state, access log, failure *)

Inductive access : Type :=
| Read (i : N)
| Write (i : N).

Definition access_index (a : access) : N :=
  match a with
  | Read i | Write i => i
  end.

Record state (T : Type) : Type := State {
  image : T;
  accesses : list access   (* newest first *)
}.
Arguments State {T} _ _.
Arguments image {T} _.
Arguments accesses {T} _.

Definition M (T A : Type) : Type := state T -> option (A * state T).

Definition ret {T A} (a : A) : M T A := fun s => Some (a, s).

Definition bind {T A B} (m : M T A) (k : A -> M T B) : M T B :=
  fun s => match m s with
           | Some (a, s') => k a s'
           | None => None
           end.

Notation "x <- m ;; k" := (bind m (fun x => k))
  (at level 100, m at next level, right associativity).
Notation "m ;;; k" := (bind m (fun _ => k))
  (at level 100, right associativity).

(** [image[i]] read. *)
Definition rd {T} `{Storage T} (i : N) : M T ChannelType :=
  fun s => match load (image s) i with
           | Some v => Some (v, State (image s) (Read i :: accesses s))
           | None => None
           end.

(** [image[i] = v]. *)
Definition wr {T} `{Storage T} (i : N) (v : ChannelType) : M T unit :=
  fun s => match store (image s) i v with
           | Some t => Some (tt, State t (Write i :: accesses s))
           | None => None
           end.

(** [for (i = lo; i < hi; ++i) body], threading the locals the body
    updates through [acc]. *)
Fixpoint for_from {T L} (count : nat) (i : N) (body : N -> L -> M T L) (acc : L) : M T L :=
  match count with
  | O => ret acc
  | S n => acc' <- body i acc ;; for_from n (i + 1) body acc'
  end.

Definition for_range {T L} (lo hi : N) (body : N -> L -> M T L) (acc : L) : M T L :=
  for_from (N.to_nat (hi - lo)) lo body acc.

(** ** The templates *)

Section Templates.
Variable IMAGE_SIZE : N.
Context {T : Type} `{Storage T}.

(** The four taps of the box filter and the write of one channel: the
    innermost loop body of [MakeMip].  The channel index is added to the
    value read, not to the index. *)
Definition MakeMip_channel (srcOffset srcWidth destY destX channel destOffset : N) : M T N :=
  a <- rd (((destY *! 2 +! 0) *! srcWidth +! destX *! 2 +! 0) *! 4 +! srcOffset) ;;
  b <- rd (((destY *! 2 +! 0) *! srcWidth +! destX *! 2 +! 1) *! 4 +! srcOffset) ;;
  c <- rd (((destY *! 2 +! 1) *! srcWidth +! destX *! 2 +! 0) *! 4 +! srcOffset) ;;
  d <- rd (((destY *! 2 +! 1) *! srcWidth +! destX *! 2 +! 1) *! 4 +! srcOffset) ;;
  let value :=
    F32.add (F32.add (F32.add (F32.add a (F32.of_N channel))
                              (F32.add b (F32.of_N channel)))
                     (F32.add c (F32.of_N channel)))
            (F32.add d (F32.of_N channel)) in
  wr destOffset (F32.div value F32.four) ;;;
  ret (destOffset +! 1).

Definition MakeMip (mipIndex : N) : M T unit :=
  let '(srcOffset, srcWidth) := GetMipInfo IMAGE_SIZE (mipIndex -! 1) in
  let '(destOffset, destWidth) := GetMipInfo IMAGE_SIZE mipIndex in
  for_range 0 destWidth (fun destY =>
    for_range 0 destWidth (fun destX =>
      for_range 0 4 (fun channel =>
        MakeMip_channel srcOffset srcWidth destY destX channel)))
    destOffset ;;;
  ret tt.

Definition MakeMips : M T unit :=
  let mipCount := NumMips IMAGE_SIZE in
  for_range 1 mipCount (fun mipIndex _ => MakeMip mipIndex) tt.

(** [memset(&image[0], 0, bytes)]: every element that the byte count
    covers becomes [+0.0f]. *)
Definition memset_zero (bytes : N) : M T unit :=
  for_range 0 (bytes / sizeof_float) (fun k _ => wr k F32.zero) tt.

(** One pixel of the gradient: the body of the inner loop of
    [InitImage]. *)
Definition InitImage_pixel (y x i : N) : M T N :=
  wr (i *! 4 +! 0) (F32.of_N (x mod 256)) ;;;
  wr (i *! 4 +! 1) (F32.of_N (y mod 256)) ;;;
  wr (i *! 4 +! 2) (F32.of_N 0) ;;;
  wr (i *! 4 +! 3) (F32.of_N 255) ;;;
  ret (i +! 1).

Definition InitImage : M T unit :=
  memset_zero (TotalChannelsMipped IMAGE_SIZE *! sizeof_float) ;;;
  for_range 0 (SizeT.wrap IMAGE_SIZE) (fun y =>
    for_range 0 (SizeT.wrap IMAGE_SIZE) (fun x => InitImage_pixel y x))
    0 ;;;
  ret tt.
End Templates.

(** ** The three storage strategies of [main] *)

(** [std::array<ChannelType, n>]: exactly [n] elements, always. *)
Record std_array (n : N) : Type := StdArray {
  array_elems : list ChannelType;
  array_size : length array_elems = N.to_nat n
}.
Arguments StdArray {n} _ _.
Arguments array_elems {n} _.
Arguments array_size {n} _.

Definition array_store {n} (a : std_array n) (i : N) (v : ChannelType) : option (std_array n) :=
  match decide (N.to_nat i < length (array_elems a))%nat with
  | left _ =>
      Some (StdArray (<[N.to_nat i := v]> (array_elems a))
              (eq_trans (length_insert _ _ _) (array_size a)))
  | right _ => None
  end.

#[export] Instance array_storage (n : N) : Storage (std_array n) := {|
  contents := array_elems;
  load a i := array_elems a !! N.to_nat i;
  store := array_store
|}.

(** [std::vector<ChannelType>]: a sequence that [resize] can grow. *)
Record std_vector : Type := StdVector { vector_elems : list ChannelType }.

(** [vector.resize(n)]: new elements are value-initialised. *)
Definition vector_resize (v : std_vector) (n : N) : std_vector :=
  StdVector (resize (N.to_nat n) F32.zero (vector_elems v)).

Definition vector_store (v : std_vector) (i : N) (x : ChannelType) : option std_vector :=
  if decide (N.to_nat i < length (vector_elems v))%nat
  then Some (StdVector (<[N.to_nat i := x]> (vector_elems v)))
  else None.

#[export] Instance vector_storage : Storage std_vector := {|
  contents := vector_elems;
  load v i := vector_elems v !! N.to_nat i;
  store := vector_store
|}.

(** [ChannelType*] into a [malloc]'d block: [block_len] elements, the
    cell at each index given by [cell]. *)
Record c_array : Type := CArray {
  block_len : N;
  cell : N -> ChannelType
}.

Definition carray_contents (c : c_array) : list ChannelType :=
  (fun k => cell c (N.of_nat k)) <$> seq 0 (N.to_nat (block_len c)).

Definition carray_load (c : c_array) (i : N) : option ChannelType :=
  if decide (i < block_len c) then Some (cell c i) else None.

Definition carray_store (c : c_array) (i : N) (v : ChannelType) : option c_array :=
  if decide (i < block_len c)
  then Some (CArray (block_len c) (fun j => if decide (j = i) then v else cell c j))
  else None.

#[export] Instance carray_storage : Storage c_array := {|
  contents := carray_contents;
  load := carray_load;
  store := carray_store
|}.

(** The blocks of [main]: obtain the storage, [InitImage], [MakeMips],
    and what the buffer holds at the end.  A [new]'d [std::array] and a
    [malloc]'d block start with indeterminate contents, given here as a
    parameter; [resize] zero-fills the vector. *)

Definition run_trial {T} `{Storage T} (W : N) (t : T) : option (list ChannelType) :=
  match (InitImage W ;;; MakeMips W) (State t []) with
  | Some (_, s) => Some (contents (image s))
  | None => None
  end.

Definition trial_std_array (W : N) (fresh : std_array (TotalChannelsMipped W)) :=
  run_trial W fresh.

(** The vector of [main] right after [resize]. *)
Definition fresh_vector (W : N) : std_vector :=
  vector_resize (StdVector []) (TotalChannelsMipped W).

Definition trial_std_vector (W : N) := run_trial W (fresh_vector W).

Definition trial_c_array (W : N) (fresh : N -> ChannelType) :=
  run_trial W (CArray (sizeof_float *! TotalChannelsMipped W / sizeof_float) fresh).

(** A vector of the size of the whole chain in which every element is
    [v]. *)
Definition uniform_vector (W : N) (v : ChannelType) : std_vector :=
  StdVector (replicate (N.to_nat (TotalChannelsMipped W)) v).

(** ** Exact (unbounded) counterparts of the addressing functions *)

(** Pixels of a chain that starts at [size]: the sum the loop of
    [TotalPixelsMipped] accumulates, without wrap-around. *)
Fixpoint pixels_of (size : positive) : N :=
  Npos size * Npos size +
  match size with
  | xH => 0
  | xO half | xI half => pixels_of half
  end.

Definition chain_pixels (W : N) : N :=
  match W with
  | 0 => 0
  | Npos p => pixels_of p
  end.

(** [GetMipInfo] without wrap-around. *)
Definition mip_info (W i : N) : N * N :=
  N.iter i (fun '(offset, width) => (offset + width * width * 4, width / 2)) (0, W).

(** The sum [f 0 + f 1 + ... + f n]. *)
Fixpoint sum_to (f : N -> N) (n : nat) : N :=
  match n with
  | O => f 0
  | S m => sum_to f m + f (N.of_nat (S m))
  end.

(** The element count of the chain as the specification writes it: the
    sum over [k] from [0] to [log2 W] of [(W / 2^k)^2 * 4]. *)
Definition chain_sum (W : N) : N :=
  sum_to (fun k => (W / 2 ^ k) ^ 2 * 4) (N.to_nat (N.log2 W)).

Definition is_pow2 (W : N) : Prop := exists k, W = 2 ^ k.

(** The widest image for which no [size_t] computation of the
    addressing wraps, and the widest for which the byte count passed to
    [memset] and [malloc] does not wrap either. *)
Definition max_width : N := 2 ^ 30.
Definition max_init_width : N := 2 ^ 29.

(** ** Regions, values and footprints *)

Notation "l .[ j ]" := (l !! N.to_nat j)
  (at level 1, left associativity, format "l .[ j ]").

(** Index of channel [c] of pixel [(x, y)] of the level that starts at
    [offset] and is [width] pixels wide. *)
Definition channel_index (offset width x y c : N) : N :=
  offset + (y * width + x) * 4 + c.

(** Index [j] lies in the region of level [i]. *)
Definition level_region (W i j : N) : Prop :=
  fst (GetMipInfo W i) <= j <
  fst (GetMipInfo W i) + snd (GetMipInfo W i) ^ 2 * 4.

(** The value [MakeMip] stores for channel [channel] of destination pixel
    [(x, y)], from the buffer [l] it reads: the four taps are channel 0
    of the source pixels and [channel] is added to each of them. *)
Definition box_value (l : list ChannelType) (srcOffset srcWidth x y channel : N)
  : option ChannelType :=
  a ← l.[channel_index srcOffset srcWidth (2 * x) (2 * y) 0];
  b ← l.[channel_index srcOffset srcWidth (2 * x + 1) (2 * y) 0];
  c ← l.[channel_index srcOffset srcWidth (2 * x) (2 * y + 1) 0];
  d ← l.[channel_index srcOffset srcWidth (2 * x + 1) (2 * y + 1) 0];
  Some (F32.div
          (F32.add (F32.add (F32.add (F32.add a (F32.of_N channel))
                                     (F32.add b (F32.of_N channel)))
                            (F32.add c (F32.of_N channel)))
                   (F32.add d (F32.of_N channel)))
          F32.four).

(** The value the specification asks for: the sum of channel [channel]
    of the four source pixels, divided by four. *)
Definition box_average (l : list ChannelType) (srcOffset srcWidth x y channel : N)
  : option ChannelType :=
  a ← l.[channel_index srcOffset srcWidth (2 * x) (2 * y) channel];
  b ← l.[channel_index srcOffset srcWidth (2 * x + 1) (2 * y) channel];
  c ← l.[channel_index srcOffset srcWidth (2 * x) (2 * y + 1) channel];
  d ← l.[channel_index srcOffset srcWidth (2 * x + 1) (2 * y + 1) channel];
  Some (F32.div (F32.add (F32.add (F32.add a b) c) d) F32.four).

(** Channel [c] of the gradient pixel [(x, y)]. *)
Definition gradient_channel (x y c : N) : ChannelType :=
  match c with
  | 0 => F32.of_N (x mod 256)
  | 1 => F32.of_N (y mod 256)
  | 2 => F32.of_N 0
  | _ => F32.of_N 255
  end.

(** Element [j] of level 0 after [InitImage]. *)
Definition gradient_at (W j : N) : ChannelType :=
  gradient_channel (j / 4 mod W) (j / 4 / W) (j mod 4).

(** The whole buffer after [InitImage], element by element. *)
Definition init_contents (W : N) (n : nat) : list ChannelType :=
  (fun k => if decide (N.of_nat k < W * W * 4)
            then gradient_at W (N.of_nat k) else F32.zero) <$> seq 0 n.

(** Reads stay in the source level, writes in the destination level. *)
Definition mip_access_ok (srcOffset srcWidth destOffset destWidth : N) (a : access) : Prop :=
  match a with
  | Read i => srcOffset <= i < srcOffset + srcWidth * srcWidth * 4
  | Write i => destOffset <= i < destOffset + destWidth * destWidth * 4
  end.

(** The access is a write below [bound]. *)
Definition write_below (bound : N) (a : access) : Prop :=
  match a with
  | Read _ => False
  | Write i => i < bound
  end.

(** The access is below [bound]. *)
Definition access_below (bound : N) (a : access) : Prop := access_index a < bound.

(** ** Invariants and effects of the runs *)

(** [MakeMip] after [k] channels have been written, started on the
    contents [c0] with the log [log0]. *)
Definition mip_inv {T} `{Storage T} (srcOffset srcWidth destOffset destWidth : N)
    (c0 : list ChannelType) (log0 : list access) (k cursor : N) (s : state T) : Prop :=
  cursor = destOffset + k /\
  length (contents (image s)) = length c0 /\
  (forall j, j < destOffset \/ destOffset + k <= j ->
     (contents (image s)).[j] = c0.[j]) /\
  (forall x y c, x < destWidth -> c < 4 -> (y * destWidth + x) * 4 + c < k ->
     (contents (image s)).[channel_index destOffset destWidth x y c] =
     box_value c0 srcOffset srcWidth x y c) /\
  exists new,
    accesses s = new ++ log0 /\
    Forall (mip_access_ok srcOffset srcWidth destOffset destWidth) new.

(** What a run of [MakeMip] from state [s] into state [s'] did, for the
    source level at [srcOffset] of width [srcWidth] and the destination
    level at [destOffset] of width [destWidth]. *)
Record mip_effect {T} `{Storage T} (srcOffset srcWidth destOffset destWidth : N)
    (s s' : state T) : Prop := MipEffect {
  mip_length : length (contents (image s')) = length (contents (image s));
  mip_frame : forall j,
    j < destOffset \/ destOffset + destWidth * destWidth * 4 <= j ->
    (contents (image s')).[j] = (contents (image s)).[j];
  mip_written : forall x y c,
    x < destWidth -> y < destWidth -> c < 4 ->
    (contents (image s')).[channel_index destOffset destWidth x y c] =
    box_value (contents (image s)) srcOffset srcWidth x y c;
  mip_log : exists new,
    accesses s' = new ++ accesses s /\
    Forall (mip_access_ok srcOffset srcWidth destOffset destWidth) new
}.

(** The gradient loops of [InitImage] after [k] pixels of level 0 have
    been written, started on the contents [c1] with the log [log1]. *)
Definition grad_inv {T} `{Storage T} (W : N) (c1 : list ChannelType) (log1 : list access)
    (k i : N) (s : state T) : Prop :=
  i = k /\
  length (contents (image s)) = length c1 /\
  (forall j, k * 4 <= j -> (contents (image s)).[j] = c1.[j]) /\
  (forall j, j < k * 4 -> (contents (image s)).[j] = Some (gradient_at W j)) /\
  exists new, accesses s = new ++ log1 /\ Forall (write_below (W * W * 4)) new.

(** What a run of [InitImage] from [s] into [s'] did. *)
Record init_effect {T} `{Storage T} (W : N) (s s' : state T) : Prop := InitEffect {
  init_length : length (contents (image s')) = length (contents (image s));
  init_level0 : forall j,
    j < W * W * 4 -> (contents (image s')).[j] = Some (gradient_at W j);
  init_zero : forall j,
    W * W * 4 <= j < TotalChannelsMipped W ->
    (contents (image s')).[j] = Some F32.zero;
  init_frame : forall j,
    TotalChannelsMipped W <= j -> (contents (image s')).[j] = (contents (image s)).[j];
  init_log : exists new,
    accesses s' = new ++ accesses s /\
    Forall (write_below (TotalChannelsMipped W)) new
}.

(** What a run of [MakeMips] from [s] into [s'] did. *)
Record mips_effect {T} `{Storage T} (W : N) (s s' : state T) : Prop := MipsEffect {
  mips_length : length (contents (image s')) = length (contents (image s));
  mips_level0 : forall j,
    j < W * W * 4 -> (contents (image s')).[j] = (contents (image s)).[j];
  mips_frame : forall j,
    4 * chain_pixels W <= j -> (contents (image s')).[j] = (contents (image s)).[j];
  mips_log : exists new,
    accesses s' = new ++ accesses s /\ Forall (access_below (4 * chain_pixels W)) new
}.

(** ** Runs over two storages side by side *)

(** The two storages hold the same values. *)
Definition same_state {T1 T2} `{Storage T1} `{Storage T2}
    (s1 : state T1) (s2 : state T2) : Prop :=
  contents (image s1) = contents (image s2).

Definition same_result {T1 T2 A} `{Storage T1} `{Storage T2}
    (r1 : option (A * state T1)) (r2 : option (A * state T2)) : Prop :=
  match r1, r2 with
  | Some (a1, s1), Some (a2, s2) => a1 = a2 /\ same_state s1 s2
  | None, None => True
  | _, _ => False
  end.

(** From storages that hold the same values the two runs fail together
    or return the same result over storages that hold the same values. *)
Definition lockstep {T1 T2 A} `{Storage T1} `{Storage T2}
    (m1 : M T1 A) (m2 : M T2 A) : Prop :=
  forall s1 s2, same_state s1 s2 -> same_result (m1 s1) (m2 s2).

(** * Part 2: properties *)

(** ** The storages are lawful *)

Lemma array_store_contents {n} (a : std_array n) i v :
  array_elems <$> array_store a i v =
  if decide (N.to_nat i < length (array_elems a))%nat
  then Some (<[N.to_nat i := v]> (array_elems a)) else None.
Proof.
  unfold array_store.
  destruct (decide (N.to_nat i < length (array_elems a))%nat); reflexivity.
Qed.

#[export] Instance array_laws (n : N) : StorageLaws (std_array n).
Proof.
  split; [reflexivity |]. intros a i v. apply array_store_contents.
Qed.

Lemma vector_store_contents v i x :
  vector_elems <$> vector_store v i x =
  if decide (N.to_nat i < length (vector_elems v))%nat
  then Some (<[N.to_nat i := x]> (vector_elems v)) else None.
Proof.
  unfold vector_store.
  destruct (decide (N.to_nat i < length (vector_elems v))%nat); reflexivity.
Qed.

#[export] Instance vector_laws : StorageLaws std_vector.
Proof.
  split; [reflexivity |]. intros v i x. apply vector_store_contents.
Qed.

Lemma carray_contents_length c : length (carray_contents c) = N.to_nat (block_len c).
Proof. unfold carray_contents. by rewrite length_fmap, length_seq. Qed.

Lemma carray_contents_lookup c (k : nat) :
  carray_contents c !! k =
  if decide (k < N.to_nat (block_len c))%nat then Some (cell c (N.of_nat k)) else None.
Proof.
  unfold carray_contents. rewrite list_lookup_fmap.
  case_decide as Hk.
  - by rewrite lookup_seq_lt.
  - rewrite lookup_seq_ge; [done | lia].
Qed.

Lemma carray_load_contents c i : carray_load c i = carray_contents c !! N.to_nat i.
Proof.
  unfold carray_load. rewrite carray_contents_lookup.
  repeat case_decide; try lia; by rewrite ?N2Nat.id.
Qed.

Lemma carray_store_contents c i v :
  carray_contents <$> carray_store c i v =
  if decide (N.to_nat i < length (carray_contents c))%nat
  then Some (<[N.to_nat i := v]> (carray_contents c)) else None.
Proof.
  unfold carray_store. rewrite carray_contents_length.
  repeat case_decide; try lia; [simpl | done].
  f_equal. apply list_eq. intros k.
  destruct (decide (k = N.to_nat i)) as [-> | Hne].
  - rewrite list_lookup_insert_eq by (rewrite carray_contents_length; lia).
    rewrite carray_contents_lookup. simpl.
    case_decide; [| lia]. rewrite N2Nat.id. by case_decide.
  - rewrite list_lookup_insert_ne by done.
    rewrite !carray_contents_lookup. simpl.
    case_decide; [| done]. case_decide; [lia | done].
Qed.

#[export] Instance carray_laws : StorageLaws c_array.
Proof.
  split; [apply carray_load_contents | apply carray_store_contents].
Qed.

(** ** The program on small inputs *)

Example total_512 : TotalChannelsMipped IMAGE_SIZE = 1398100.
Proof. reflexivity. Qed.

Example nummips_512 : NumMips IMAGE_SIZE = 10.
Proof. reflexivity. Qed.

Example mipinfo_512_3 : GetMipInfo IMAGE_SIZE 3 = (1376256, 64).
Proof. reflexivity. Qed.

Example f32_half : F32.div (F32.add (F32.of_N 1) (F32.of_N 1)) F32.four = F32.half.
Proof. reflexivity. Qed.

Example f32_halves : F32.halves 1 = F32.half.
Proof. reflexivity. Qed.

Example trial_vector_2 :
  trial_std_vector 2 =
  Some (F32.of_N 0 :: F32.of_N 0 :: F32.zero :: F32.of_N 255 ::
        F32.of_N 1 :: F32.of_N 0 :: F32.zero :: F32.of_N 255 ::
        F32.of_N 0 :: F32.of_N 1 :: F32.zero :: F32.of_N 255 ::
        F32.of_N 1 :: F32.of_N 1 :: F32.zero :: F32.of_N 255 ::
        F32.halves 1 :: F32.halves 3 :: F32.halves 5 :: F32.halves 7 :: nil).
Proof. vm_compute. reflexivity. Qed.

Example trial_array_2 fresh : trial_std_array 2 fresh = trial_std_vector 2.
Proof.
  destruct fresh as [l Hl]. do 21 (destruct l as [| ? l]; try discriminate Hl).
  vm_compute. reflexivity.
Qed.

(** ** Arithmetic of the chain *)

Lemma wrap_small n : n < SizeT.modulus -> SizeT.wrap n = n.
Proof. apply N.mod_small. Qed.

Lemma modulus_eq : SizeT.modulus = 18446744073709551616.
Proof. reflexivity. Qed.

Lemma half_pos_xO p : N.pos p~0 / 2 = N.pos p.
Proof. change (N.pos p~0) with (2 * N.pos p). rewrite N.mul_comm. apply N.div_mul. lia. Qed.

Lemma half_pos_xI p : N.pos p~1 / 2 = N.pos p.
Proof.
  change (N.pos p~1) with (2 * N.pos p + 1).
  symmetry. apply (N.div_unique _ 2 _ 1); lia.
Qed.

Lemma while_halving_unfold {A} (body : N -> A -> A) size acc :
  while_halving body size acc =
  if decide (size = 0) then acc else while_halving body (size / 2) (body size acc).
Proof.
  destruct size as [| p]; [done |].
  case_decide; [done |].
  destruct p; rewrite ?half_pos_xI, ?half_pos_xO; reflexivity.
Qed.

Lemma chain_pixels_step W : W <> 0 -> chain_pixels W = W * W + chain_pixels (W / 2).
Proof.
  destruct W as [| p]; [done |]. intros _.
  destruct p; simpl chain_pixels.
  - by rewrite half_pos_xI.
  - by rewrite half_pos_xO.
  - reflexivity.
Qed.

Lemma chain_pixels_0 : chain_pixels 0 = 0.
Proof. reflexivity. Qed.

Lemma pixels_of_bound p : 3 * pixels_of p <= 4 * (N.pos p * N.pos p).
Proof.
  induction p as [p IH | p IH |]; simpl pixels_of.
  - change (N.pos p~1) with (2 * N.pos p + 1). nia.
  - change (N.pos p~0) with (2 * N.pos p). nia.
  - simpl. lia.
Qed.

Lemma chain_pixels_bound W : 3 * chain_pixels W <= 4 * (W * W).
Proof. destruct W; [done | apply pixels_of_bound]. Qed.

Lemma chain_pixels_mono_half W : chain_pixels (W / 2) <= chain_pixels W.
Proof.
  destruct (decide (W = 0)) as [-> | Hne]; [done |].
  rewrite (chain_pixels_step W) by done. lia.
Qed.

Lemma halving_loop_pixels p ret :
  ret + pixels_of p < SizeT.modulus ->
  halving_loop (fun size ret => ret +! size *! size) p ret = ret + pixels_of p.
Proof.
  revert ret. induction p as [p IH | p IH |]; intros ret Hlt; simpl in *.
  - assert (Hsq : N.pos p~1 * N.pos p~1 < SizeT.modulus) by lia.
    unfold SizeT.add, SizeT.mul. rewrite (wrap_small _ Hsq).
    rewrite wrap_small by lia. rewrite IH by lia. lia.
  - assert (Hsq : N.pos p~0 * N.pos p~0 < SizeT.modulus) by lia.
    unfold SizeT.add, SizeT.mul. rewrite (wrap_small _ Hsq).
    rewrite wrap_small by lia. rewrite IH by lia. lia.
  - replace (1 *! 1) with 1 by reflexivity.
    unfold SizeT.add. rewrite wrap_small; lia.
Qed.

Lemma width_bound_modulus W : W <= max_width -> W < SizeT.modulus.
Proof. unfold max_width. rewrite modulus_eq. intros. 
  assert (2 ^ 30 = 1073741824) by reflexivity. lia. Qed.

Lemma chain_channels_bound W : W <= max_width -> 4 * chain_pixels W < 2 ^ 63.
Proof.
  intros HW. pose proof (chain_pixels_bound W) as Hb.
  assert (W * W <= max_width * max_width) by (apply N.mul_le_mono; done).
  assert (Hm : max_width * max_width = 2 ^ 60) by reflexivity.
  assert (H63 : 2 ^ 63 = 8 * 2 ^ 60) by reflexivity.
  lia.
Qed.

Lemma two63_lt_modulus : 2 ^ 63 < SizeT.modulus.
Proof. reflexivity. Qed.

Lemma TotalPixelsMipped_exact W :
  W <= max_width -> TotalPixelsMipped W = chain_pixels W.
Proof.
  intros HW. unfold TotalPixelsMipped.
  rewrite wrap_small by (by apply width_bound_modulus).
  pose proof (chain_channels_bound W HW). pose proof two63_lt_modulus.
  destruct W as [| p]; [done |]. simpl.
  rewrite halving_loop_pixels; simpl in *; lia.
Qed.

Lemma TotalChannelsMipped_exact W :
  W <= max_width -> TotalChannelsMipped W = 4 * chain_pixels W.
Proof.
  intros HW. unfold TotalChannelsMipped. rewrite TotalPixelsMipped_exact by done.
  pose proof (chain_channels_bound W HW). pose proof two63_lt_modulus.
  unfold SizeT.mul. rewrite wrap_small; lia.
Qed.

Lemma mip_info_succ W i :
  mip_info W (N.succ i) =
  (fst (mip_info W i) + snd (mip_info W i) * snd (mip_info W i) * 4,
   snd (mip_info W i) / 2).
Proof.
  unfold mip_info. rewrite N.iter_succ.
  by destruct (N.iter i _ _) as [o w].
Qed.

Lemma half_pow2 W i : W / 2 ^ N.succ i = W / 2 ^ i / 2.
Proof.
  rewrite N.pow_succ_r', (N.mul_comm 2). symmetry. apply N.Div0.div_div.
Qed.

Lemma mip_info_width W i : snd (mip_info W i) = W / 2 ^ i.
Proof.
  induction i as [| i IH] using N.peano_ind.
  - simpl. by rewrite N.div_1_r.
  - rewrite mip_info_succ, half_pow2. simpl. by rewrite IH.
Qed.

(** What lies before level [i] and what lies from level [i] on add up to
    the whole chain. *)
Lemma mip_info_offset W i :
  fst (mip_info W i) + 4 * chain_pixels (W / 2 ^ i) = 4 * chain_pixels W.
Proof.
  induction i as [| i IH] using N.peano_ind.
  - simpl. by rewrite N.div_1_r.
  - rewrite mip_info_succ, half_pow2. simpl. rewrite mip_info_width.
    destruct (decide (W / 2 ^ i = 0)) as [Hz | Hnz].
    + rewrite Hz in *. simpl in *. lia.
    + rewrite (chain_pixels_step _ Hnz) in IH. lia.
Qed.

Lemma mip_info_level_end W i :
  fst (mip_info W i) + (W / 2 ^ i) * (W / 2 ^ i) * 4 <= 4 * chain_pixels W.
Proof.
  pose proof (mip_info_offset W i) as Ho.
  destruct (decide (W / 2 ^ i = 0)) as [Hz | Hnz].
  - rewrite Hz in *. lia.
  - rewrite (chain_pixels_step _ Hnz) in Ho. lia.
Qed.

Lemma GetMipInfo_succ W i :
  GetMipInfo W (N.succ i) =
  (fst (GetMipInfo W i) +! snd (GetMipInfo W i) *! snd (GetMipInfo W i) *! 4,
   snd (GetMipInfo W i) / 2).
Proof.
  unfold GetMipInfo. rewrite N.iter_succ.
  by destruct (N.iter i _ _) as [o w].
Qed.

Lemma GetMipInfo_width W i : snd (GetMipInfo W i) = SizeT.wrap W / 2 ^ i.
Proof.
  induction i as [| i IH] using N.peano_ind.
  - simpl. by rewrite N.div_1_r.
  - rewrite GetMipInfo_succ, half_pow2. simpl. by rewrite IH.
Qed.

Lemma GetMipInfo_exact W i : W <= max_width -> GetMipInfo W i = mip_info W i.
Proof.
  intros HW.
  pose proof (chain_channels_bound W HW) as Hb. pose proof two63_lt_modulus as H63.
  induction i as [| i IH] using N.peano_ind.
  - unfold GetMipInfo, mip_info. simpl.
    by rewrite wrap_small by (by apply width_bound_modulus).
  - rewrite GetMipInfo_succ, mip_info_succ, IH.
    pose proof (mip_info_level_end W i) as He.
    rewrite mip_info_width in *.
    set (w := W / 2 ^ i) in *. set (o := fst (mip_info W i)) in *.
    unfold SizeT.add, SizeT.mul.
    rewrite (wrap_small (w * w)) by lia.
    rewrite (wrap_small (w * w * 4)) by lia.
    rewrite wrap_small by lia. reflexivity.
Qed.

(** [NumMips] counts the binary digits of the width. *)
Lemma halving_loop_count p ret :
  ret + N.pos (Pos.size p) < SizeT.modulus ->
  halving_loop (fun _ ret => ret +! 1) p ret = ret + N.pos (Pos.size p).
Proof.
  revert ret. induction p as [p IH | p IH |]; intros ret Hlt; simpl in *.
  - replace (ret +! 1) with (ret + 1)
      by (unfold SizeT.add; rewrite wrap_small; lia).
    rewrite IH; lia.
  - replace (ret +! 1) with (ret + 1)
      by (unfold SizeT.add; rewrite wrap_small; lia).
    rewrite IH; lia.
  - unfold SizeT.add. rewrite wrap_small; lia.
Qed.

Lemma size_bound W : W < SizeT.modulus -> N.size W <= 64.
Proof.
  intros HW. destruct (decide (W = 0)) as [-> | Hnz]; [done |].
  rewrite N.size_log2 by done.
  assert (N.log2 W < 64); [| lia].
  apply N.log2_lt_pow2; [lia | done].
Qed.

Lemma NumMips_exact W : W < SizeT.modulus -> NumMips W = N.size W.
Proof.
  intros HW. unfold NumMips. rewrite wrap_small by done.
  pose proof (size_bound W HW) as Hs.
  destruct W as [| p]; [done |]. simpl in *.
  rewrite halving_loop_count; [done |]. rewrite modulus_eq. lia.
Qed.

Lemma sum_to_shift f n :
  sum_to f (S n) = f 0 + sum_to (fun k => f (N.succ k)) n.
Proof.
  induction n as [| n IH].
  - reflexivity.
  - change (sum_to f (S (S n))) with (sum_to f (S n) + f (N.of_nat (S (S n)))).
    rewrite IH. simpl sum_to at 2.
    rewrite <- Nat2N.inj_succ. lia.
Qed.

Lemma sum_to_ext f g n : (forall k, f k = g k) -> sum_to f n = sum_to g n.
Proof. intros Hfg. induction n as [| n IH]; simpl; by rewrite ?IH, Hfg. Qed.

Lemma chain_sum_half W :
  2 <= W -> chain_sum W = W * W * 4 + chain_sum (W / 2).
Proof.
  intros HW. unfold chain_sum.
  assert (Hlog : N.log2 W = N.succ (N.log2 (W / 2))).
  { rewrite <- N.div2_div, N.div2_spec, N.log2_shiftr.
    assert (0 < N.log2 W) by (apply N.log2_pos; lia). lia. }
  rewrite Hlog, N2Nat.inj_succ, sum_to_shift.
  rewrite N.pow_0_r, N.div_1_r. f_equal; [lia |].
  apply sum_to_ext. intros k.
  by rewrite N.pow_succ_r', N.Div0.div_div.
Qed.

Lemma chain_sum_exact W : chain_sum W = 4 * chain_pixels W.
Proof.
  destruct W as [| p]; [reflexivity |].
  induction p as [p IH | p IH |].
  - rewrite chain_sum_half by lia.
    rewrite (chain_pixels_step (N.pos p~1)) by done.
    rewrite half_pos_xI, IH. lia.
  - rewrite chain_sum_half by lia.
    rewrite (chain_pixels_step (N.pos p~0)) by done.
    rewrite half_pos_xO, IH. lia.
  - reflexivity.
Qed.

(** ** Reasoning about runs *)

Section Runs.
Context {T : Type} `{Storage T} `{!StorageLaws T}.

Lemma bind_Some {A B} (m : M T A) (k : A -> M T B) s a s' :
  m s = Some (a, s') -> bind m k s = k a s'.
Proof. unfold bind. by intros ->. Qed.

Lemma rd_Some s i v :
  (contents (image s)).[i] = Some v ->
  rd i s = Some (v, State (image s) (Read i :: accesses s)).
Proof. unfold rd. rewrite load_contents. by intros ->. Qed.

Lemma wr_Some s i v :
  (N.to_nat i < length (contents (image s)))%nat ->
  exists t, wr i v s = Some (tt, State t (Write i :: accesses s)) /\
            contents t = <[N.to_nat i := v]> (contents (image s)).
Proof.
  intros Hi. unfold wr.
  pose proof (store_contents (image s) i v) as Hst.
  rewrite decide_True in Hst by done.
  destruct (store (image s) i v) as [t |]; [| done].
  exists t. split; [done |]. by injection Hst.
Qed.

(** The invariant rule for [for] loops; it also yields that the loop
    runs to its end. *)
Lemma for_from_inv {L} (I : N -> L -> state T -> Prop) body count lo acc s :
  I lo acc s ->
  (forall i a s, lo <= i < lo + N.of_nat count -> I i a s ->
     exists a' s', body i a s = Some (a', s') /\ I (i + 1) a' s') ->
  exists a' s', for_from count lo body acc s = Some (a', s') /\
                I (lo + N.of_nat count) a' s'.
Proof.
  revert lo acc s. induction count as [| n IH]; intros lo acc s HI Hstep.
  - exists acc, s. split; [done |]. by rewrite N.add_0_r.
  - destruct (Hstep lo acc s) as (a1 & s1 & Hb & HI1); [lia | done |].
    destruct (IH (lo + 1) a1 s1) as (a2 & s2 & Hf & HI2); [done | |].
    + intros i a s0 Hi. apply Hstep. lia.
    + exists a2, s2. split.
      * simpl. by rewrite (bind_Some _ _ _ _ _ Hb).
      * replace (lo + N.of_nat (S n)) with (lo + 1 + N.of_nat n) by lia. done.
Qed.

Lemma for_range_inv {L} (I : N -> L -> state T -> Prop) body lo hi acc s :
  lo <= hi ->
  I lo acc s ->
  (forall i a s, lo <= i < hi -> I i a s ->
     exists a' s', body i a s = Some (a', s') /\ I (i + 1) a' s') ->
  exists a' s', for_range lo hi body acc s = Some (a', s') /\ I hi a' s'.
Proof.
  intros Hle HI Hstep. unfold for_range.
  destruct (for_from_inv I body (N.to_nat (hi - lo)) lo acc s) as (a' & s' & Hf & HI');
    [done | |].
  - intros i a s0 Hi. apply Hstep. lia.
  - exists a', s'. split; [done |].
    replace hi with (lo + N.of_nat (N.to_nat (hi - lo))) at 1 by lia. done.
Qed.
End Runs.

(** ** Storage independence: runs over two storages that hold the same
  values proceed in lock step *)

Section Simulation.
Context {T1 T2 : Type} `{Storage T1} `{!StorageLaws T1} `{Storage T2} `{!StorageLaws T2}.

Lemma lockstep_ret {A} (a : A) : @lockstep T1 T2 _ _ _ (ret a) (ret a).
Proof. intros s1 s2 Hs. by split. Qed.

Lemma lockstep_bind {A B} (m1 : M T1 A) (m2 : M T2 A) (k1 : A -> M T1 B) (k2 : A -> M T2 B) :
  lockstep m1 m2 -> (forall a, @lockstep T1 T2 _ _ _ (k1 a) (k2 a)) ->
  @lockstep T1 T2 _ _ _ (bind m1 k1) (bind m2 k2).
Proof.
  intros Hm Hk s1 s2 Hs. unfold bind.
  specialize (Hm s1 s2 Hs). unfold same_result in Hm.
  destruct (m1 s1) as [[a1 s1'] |], (m2 s2) as [[a2 s2'] |]; try done.
  destruct Hm as [-> Hs']. by apply Hk.
Qed.

Lemma lockstep_rd i : @lockstep T1 T2 _ _ _ (rd i) (rd i).
Proof.
  intros s1 s2 Hc. unfold same_state in Hc. unfold rd.
  rewrite !load_contents, Hc.
  destruct ((contents (image s2)).[i]); simpl; [| done].
  by split.
Qed.

Lemma lockstep_wr i v : @lockstep T1 T2 _ _ _ (wr i v) (wr i v).
Proof.
  intros s1 s2 Hc. unfold same_state in Hc. unfold wr.
  pose proof (store_contents (image s1) i v) as H1.
  pose proof (store_contents (image s2) i v) as H2.
  rewrite Hc in H1. rewrite <- H2 in H1.
  destruct (store (image s1) i v), (store (image s2) i v); simpl in *; try done.
  split; [done |]. unfold same_state. simpl. by injection H1.
Qed.

Lemma lockstep_for_from {L} (b1 : N -> L -> M T1 L) (b2 : N -> L -> M T2 L) count lo acc :
  (forall i a, @lockstep T1 T2 _ _ _ (b1 i a) (b2 i a)) ->
  @lockstep T1 T2 _ _ _ (for_from count lo b1 acc) (for_from count lo b2 acc).
Proof.
  intros Hb. revert lo acc. induction count as [| n IH]; intros lo acc; simpl.
  - apply lockstep_ret.
  - apply lockstep_bind; [apply Hb | intros a; apply IH].
Qed.

Lemma lockstep_for_range {L} (b1 : N -> L -> M T1 L) (b2 : N -> L -> M T2 L) lo hi acc :
  (forall i a, @lockstep T1 T2 _ _ _ (b1 i a) (b2 i a)) ->
  @lockstep T1 T2 _ _ _ (for_range lo hi b1 acc) (for_range lo hi b2 acc).
Proof. apply lockstep_for_from. Qed.

Lemma lockstep_MakeMip W i : @lockstep T1 T2 _ _ _ (MakeMip W i) (MakeMip W i).
Proof.
  unfold MakeMip.
  destruct (GetMipInfo W (i -! 1)) as [srcOffset srcWidth].
  destruct (GetMipInfo W i) as [destOffset destWidth].
  apply lockstep_bind; [| intros; apply lockstep_ret].
  apply lockstep_for_range. intros destY a0.
  apply lockstep_for_range. intros destX a1.
  apply lockstep_for_range. intros channel a2.
  unfold MakeMip_channel.
  repeat (apply lockstep_bind; [apply lockstep_rd | intros ?]).
  apply lockstep_bind; [apply lockstep_wr | intros; apply lockstep_ret].
Qed.

Lemma lockstep_MakeMips W : @lockstep T1 T2 _ _ _ (MakeMips W) (MakeMips W).
Proof.
  unfold MakeMips. apply lockstep_for_range. intros i a. apply lockstep_MakeMip.
Qed.

End Simulation.

(** ** One step of the box filter *)

Lemma pixel_index_inj w x y c x' y' c' :
  x < w -> x' < w -> c < 4 -> c' < 4 ->
  (y * w + x) * 4 + c = (y' * w + x') * 4 + c' ->
  x = x' /\ y = y' /\ c = c'.
Proof.
  intros Hx Hx' Hc Hc' Heq.
  assert (c = c') as -> by lia.
  assert (Hp : y * w + x = y' * w + x') by lia.
  assert (y = y') as ->; [| lia].
  destruct (N.lt_trichotomy y y') as [Hlt | [-> | Hgt]]; [| done |]; nia.
Qed.

Lemma pixel_index_bound w x y c :
  x < w -> y < w -> c < 4 -> (y * w + x) * 4 + c < w * w * 4.
Proof. intros. nia. Qed.

Section MakeMipStep.
Context {T : Type} `{Storage T} `{!StorageLaws T}.
Variables srcOffset srcWidth destOffset destWidth : N.
Variable c0 : list ChannelType.
Variable log0 : list access.
Hypothesis Hhalf : 2 * destWidth <= srcWidth.
Hypothesis Hsrc : srcOffset + srcWidth * srcWidth * 4 <= destOffset.
Hypothesis Hlen : destOffset + destWidth * destWidth * 4 <= N.of_nat (length c0).
Hypothesis Hfit : destOffset + destWidth * destWidth * 4 < SizeT.modulus.

Local Abbreviation mip_inv := (mip_inv srcOffset srcWidth destOffset destWidth c0 log0).
Local Abbreviation mip_access_ok := (mip_access_ok srcOffset srcWidth destOffset destWidth).

Lemma tap_index x y dx dy :
  x < destWidth -> y < destWidth -> dx <= 1 -> dy <= 1 ->
  ((y *! 2 +! dy) *! srcWidth +! x *! 2 +! dx) *! 4 +! srcOffset =
    channel_index srcOffset srcWidth (2 * x + dx) (2 * y + dy) 0 /\
  channel_index srcOffset srcWidth (2 * x + dx) (2 * y + dy) 0 <
    srcOffset + srcWidth * srcWidth * 4.
Proof.
  clear Hlen. intros Hx Hy Hdx Hdy. unfold channel_index.
  assert (HY : y * 2 + dy < srcWidth) by lia.
  assert (HX : x * 2 + dx < srcWidth) by lia.
  assert (Hrow : (y * 2 + dy) * srcWidth + (x * 2 + dx) < srcWidth * srcWidth) by nia.
  assert (Hsw : srcWidth * srcWidth * 4 < SizeT.modulus) by lia.
  assert (Hw : srcWidth <= srcWidth * srcWidth) by nia.
  split; [| lia].
  unfold SizeT.add, SizeT.mul.
  rewrite (wrap_small (y * 2)) by lia.
  rewrite (wrap_small (y * 2 + dy)) by lia.
  rewrite (wrap_small ((y * 2 + dy) * srcWidth)) by nia.
  rewrite (wrap_small (x * 2)) by lia.
  rewrite (wrap_small ((y * 2 + dy) * srcWidth + x * 2)) by lia.
  rewrite (wrap_small ((y * 2 + dy) * srcWidth + x * 2 + dx)) by lia.
  rewrite (wrap_small (((y * 2 + dy) * srcWidth + x * 2 + dx) * 4)) by lia.
  rewrite wrap_small by lia. lia.
Qed.

Lemma tap_Some x y dx dy :
  x < destWidth -> y < destWidth -> dx <= 1 -> dy <= 1 ->
  is_Some (c0.[channel_index srcOffset srcWidth (2 * x + dx) (2 * y + dy) 0]).
Proof.
  intros Hx Hy Hdx Hdy.
  destruct (tap_index x y dx dy) as [_ Hlt]; [done.. |].
  apply lookup_lt_is_Some. lia.
Qed.

Lemma box_value_Some x y c :
  x < destWidth -> y < destWidth -> is_Some (box_value c0 srcOffset srcWidth x y c).
Proof.
  intros Hx Hy. unfold box_value.
  destruct (tap_Some x y 0 0) as [a Ha]; [done || lia.. |].
  destruct (tap_Some x y 1 0) as [b Hb]; [done || lia.. |].
  destruct (tap_Some x y 0 1) as [c1 Hc]; [done || lia.. |].
  destruct (tap_Some x y 1 1) as [d Hd]; [done || lia.. |].
  rewrite !N.add_0_r in *. rewrite Ha, Hb, Hc, Hd. simpl. eauto.
Qed.

Lemma mip_inv_eq k k' cursor s : k = k' -> mip_inv k cursor s -> mip_inv k' cursor s.
Proof. by intros ->. Qed.

Lemma MakeMip_channel_step y x c cursor s :
  y < destWidth -> x < destWidth -> c < 4 ->
  mip_inv ((y * destWidth + x) * 4 + c) cursor s ->
  exists cursor' s',
    MakeMip_channel srcOffset srcWidth y x c cursor s = Some (cursor', s') /\
    mip_inv ((y * destWidth + x) * 4 + c + 1) cursor' s'.
Proof.
  intros Hy Hx Hc (Hcur & Hlen' & Hout & Hdone & new & Hlog & Hnew).
  set (k := (y * destWidth + x) * 4 + c) in *.
  assert (Hk : k < destWidth * destWidth * 4) by (by apply pixel_index_bound).
  destruct (tap_index x y 0 0) as [E00 L00]; [done || lia.. |].
  destruct (tap_index x y 1 0) as [E10 L10]; [done || lia.. |].
  destruct (tap_index x y 0 1) as [E01 L01]; [done || lia.. |].
  destruct (tap_index x y 1 1) as [E11 L11]; [done || lia.. |].
  destruct (tap_Some x y 0 0) as [a Ha]; [done || lia.. |].
  destruct (tap_Some x y 1 0) as [b Hb]; [done || lia.. |].
  destruct (tap_Some x y 0 1) as [c1 Hc1]; [done || lia.. |].
  destruct (tap_Some x y 1 1) as [d Hd]; [done || lia.. |].
  assert (Hbox : box_value c0 srcOffset srcWidth x y c =
                 Some (F32.div
                   (F32.add (F32.add (F32.add (F32.add a (F32.of_N c))
                                              (F32.add b (F32.of_N c)))
                                     (F32.add c1 (F32.of_N c)))
                            (F32.add d (F32.of_N c)))
                   F32.four)).
  { unfold box_value. rewrite !N.add_0_r in *. by rewrite Ha, Hb, Hc1, Hd. }
  unfold MakeMip_channel. rewrite E00, E10, E01, E11.
  erewrite bind_Some; [| apply rd_Some; rewrite Hout by lia; exact Ha]. simpl.
  erewrite bind_Some; [| apply rd_Some; simpl; rewrite Hout by lia; exact Hb]. simpl.
  erewrite bind_Some; [| apply rd_Some; simpl; rewrite Hout by lia; exact Hc1]. simpl.
  erewrite bind_Some; [| apply rd_Some; simpl; rewrite Hout by lia; exact Hd]. simpl.
  match goal with
  | |- context [bind (wr cursor ?v) _ ?s1] =>
      destruct (wr_Some s1 cursor v) as (t & Hwr & Ht); [simpl; lia |];
      rewrite (bind_Some _ _ _ _ _ Hwr)
  end.
  simpl in Ht. eexists _, _. split; [reflexivity |].
  repeat split; simpl.
  - unfold SizeT.add. rewrite wrap_small; lia.
  - by rewrite Ht, length_insert.
  - intros j Hj. rewrite Ht, list_lookup_insert_ne by lia. apply Hout. lia.
  - intros x' y' c' Hx' Hc' Hlt. rewrite Ht.
    destruct (decide ((y' * destWidth + x') * 4 + c' = k)) as [Heq | Hne].
    + destruct (pixel_index_inj destWidth x' y' c' x y c) as (-> & -> & ->);
        [done.. |].
      rewrite Hbox. unfold channel_index. fold k.
      replace (destOffset + (y * destWidth + x) * 4 + c) with cursor by lia.
      apply list_lookup_insert_eq. lia.
    + unfold channel_index. rewrite list_lookup_insert_ne by lia.
      apply Hdone; [done.. | lia].
  - eexists (Write cursor :: Read _ :: Read _ :: Read _ :: Read _ :: new).
    split; [by rewrite Hlog |].
    repeat apply List.Forall_cons; simpl; try done;
      unfold channel_index in *; lia.
Qed.

Lemma MakeMip_loops cursor s :
  mip_inv 0 cursor s ->
  exists cursor' s',
    for_range 0 destWidth (fun destY =>
      for_range 0 destWidth (fun destX =>
        for_range 0 4 (fun channel =>
          MakeMip_channel srcOffset srcWidth destY destX channel))) cursor s
    = Some (cursor', s') /\
    mip_inv (destWidth * destWidth * 4) cursor' s'.
Proof.
  intros H0.
  apply (for_range_inv (fun y => mip_inv (y * destWidth * 4))); [lia | done |].
  intros y cur1 s1 Hy Hrow.
  destruct (for_range_inv (fun x => mip_inv ((y * destWidth + x) * 4))
              (fun destX => for_range 0 4 (fun channel =>
                 MakeMip_channel srcOffset srcWidth y destX channel))
              0 destWidth cur1 s1) as (cur2 & s2 & Hrun & Hend); [lia | | |].
  - eapply mip_inv_eq; [| exact Hrow]. lia.
  - intros x cur3 s3 Hx Hpix.
    destruct (for_range_inv (fun c => mip_inv ((y * destWidth + x) * 4 + c))
                (fun channel => MakeMip_channel srcOffset srcWidth y x channel)
                0 4 cur3 s3) as (cur4 & s4 & Hrun & Hend); [lia | | |].
    + eapply mip_inv_eq; [| exact Hpix]. lia.
    + intros c cur5 s5 Hc Hch.
      destruct (MakeMip_channel_step y x c cur5 s5) as (cur6 & s6 & Hstep & Hnext);
        [lia.. | done |].
      exists cur6, s6. split; [done |].
      eapply mip_inv_eq; [| exact Hnext]. lia.
    + exists cur4, s4. split; [done |].
      eapply mip_inv_eq; [| exact Hend]. lia.
  - exists cur2, s2. split; [done |].
    eapply mip_inv_eq; [| exact Hend]. lia.
Qed.
End MakeMipStep.

(** ** [MakeMip] as a whole *)

Lemma sub_one i : 1 <= i < SizeT.modulus -> i -! 1 = i - 1.
Proof.
  intros Hi. unfold SizeT.sub.
  replace (SizeT.wrap 1) with 1 by reflexivity.
  replace (i + SizeT.modulus - 1) with (i - 1 + 1 * SizeT.modulus) by lia.
  unfold SizeT.wrap. rewrite N.Div0.mod_add. apply N.mod_small. lia.
Qed.

Lemma MakeMip_effect {T} `{Storage T} `{!StorageLaws T} W i (s : state T) :
  W <= max_width -> 1 <= i < SizeT.modulus ->
  fst (mip_info W i) + snd (mip_info W i) * snd (mip_info W i) * 4
    <= N.of_nat (length (contents (image s))) ->
  exists s',
    MakeMip W i s = Some (tt, s') /\
    mip_effect (fst (mip_info W (i - 1))) (snd (mip_info W (i - 1)))
               (fst (mip_info W i)) (snd (mip_info W i)) s s'.
Proof.
  intros HW Hi Hlen.
  unfold MakeMip. rewrite sub_one by done. rewrite !GetMipInfo_exact by done.
  assert (Hsucc : i = N.succ (i - 1)) by lia.
  pose proof (mip_info_succ W (i - 1)) as Hstep. rewrite <- Hsucc in Hstep.
  pose proof (mip_info_level_end W i) as Hend. rewrite <- mip_info_width in Hend.
  pose proof (chain_channels_bound W HW) as Hb. pose proof two63_lt_modulus as H63.
  destruct (mip_info W (i - 1)) as [srcOffset srcWidth].
  destruct (mip_info W i) as [destOffset destWidth]. simpl in *.
  injection Hstep as Hoff Hwid.
  assert (Hhalf : 2 * destWidth <= srcWidth)
    by (rewrite Hwid; apply N.Div0.mul_div_le).
  destruct (MakeMip_loops srcOffset srcWidth destOffset destWidth
              (contents (image s)) (accesses s) Hhalf ltac:(lia) Hlen ltac:(lia)
              destOffset s) as (cur & s' & Hrun & Hinv).
  { repeat split; try done; [lia | | by exists []].
    intros x y c _ _ Hlt. lia. }
  exists s'. rewrite (bind_Some _ _ _ _ _ Hrun). split; [done |].
  destruct Hinv as (_ & Hl & Hout & Hdone & Hlog).
  split; [done | | | done].
  - intros j Hj. apply Hout. lia.
  - intros x y c Hx Hy Hc. apply Hdone; [done.. |]. by apply pixel_index_bound.
Qed.


(** ** [InitImage] *)

Lemma gradient_at_pixel W x y c :
  x < W -> c < 4 -> gradient_at W ((y * W + x) * 4 + c) = gradient_channel x y c.
Proof.
  intros Hx Hc. unfold gradient_at.
  assert (Hdiv : ((y * W + x) * 4 + c) / 4 = y * W + x)
    by (symmetry; apply (N.div_unique _ 4 _ c); lia).
  assert (Hmod : ((y * W + x) * 4 + c) mod 4 = c)
    by (symmetry; apply (N.mod_unique _ 4 (y * W + x)); lia).
  rewrite Hdiv, Hmod.
  replace ((y * W + x) mod W) with x
    by (apply (N.mod_unique _ W y); lia).
  replace ((y * W + x) / W) with y
    by (apply (N.div_unique _ W _ x); lia).
  reflexivity.
Qed.

Lemma init_contents_length W n : length (init_contents W n) = n.
Proof. unfold init_contents. by rewrite length_fmap, length_seq. Qed.

Lemma init_contents_lookup W n (j : N) :
  j < N.of_nat n ->
  (init_contents W n).[j] =
  Some (if decide (j < W * W * 4) then gradient_at W j else F32.zero).
Proof.
  intros Hj. unfold init_contents.
  rewrite list_lookup_fmap, lookup_seq_lt by lia. simpl.
  by rewrite N2Nat.id.
Qed.

Lemma chain_pixels_base W : W * W <= chain_pixels W.
Proof.
  destruct (decide (W = 0)) as [-> | Hnz]; [done |].
  rewrite chain_pixels_step by done. lia.
Qed.

Lemma init_width_bound W : W <= max_init_width -> W <= max_width.
Proof.
  unfold max_init_width, max_width.
  assert (2 ^ 29 = 536870912) as -> by reflexivity.
  assert (2 ^ 30 = 1073741824) as -> by reflexivity. lia.
Qed.

Lemma init_channels_bound W : W <= max_init_width -> 4 * chain_pixels W < 2 ^ 61.
Proof.
  intros HW. pose proof (chain_pixels_bound W) as Hb.
  assert (W * W <= max_init_width * max_init_width) by (apply N.mul_le_mono; done).
  assert (Hm : max_init_width * max_init_width = 2 ^ 58) by reflexivity.
  assert (H61 : 2 ^ 61 = 8 * 2 ^ 58) by reflexivity.
  lia.
Qed.

Lemma memset_count W :
  W <= max_init_width ->
  (TotalChannelsMipped W *! sizeof_float) / sizeof_float = TotalChannelsMipped W.
Proof.
  intros HW. pose proof (init_channels_bound W HW) as Hb.
  rewrite TotalChannelsMipped_exact by (by apply init_width_bound).
  unfold SizeT.mul, sizeof_float. rewrite wrap_small.
  - apply N.div_mul. lia.
  - rewrite modulus_eq. assert (2 ^ 61 = 2305843009213693952) by reflexivity. lia.
Qed.

Ltac step_wr :=
  match goal with
  | |- context [bind (wr ?i ?v) _ ?s1] =>
      let t := fresh "t" in
      let Hwr := fresh "Hwr" in
      let Ht := fresh "Ht" in
      destruct (wr_Some s1 i v) as (t & Hwr & Ht);
      [simpl; try lia | rewrite (bind_Some _ _ _ _ _ Hwr); simpl in Ht]
  end.

Section InitImageRun.
Context {T : Type} `{Storage T} `{!StorageLaws T}.

Lemma memset_zero_effect bytes (s : state T) :
  bytes / sizeof_float <= N.of_nat (length (contents (image s))) ->
  exists s',
    memset_zero bytes s = Some (tt, s') /\
    length (contents (image s')) = length (contents (image s)) /\
    (forall j, j < bytes / sizeof_float -> (contents (image s')).[j] = Some F32.zero) /\
    (forall j, bytes / sizeof_float <= j ->
       (contents (image s')).[j] = (contents (image s)).[j]) /\
    exists new, accesses s' = new ++ accesses s /\
                Forall (write_below (bytes / sizeof_float)) new.
Proof.
  intros Hlen. unfold memset_zero. set (n := bytes / sizeof_float) in *.
  destruct (for_range_inv
    (fun k (_ : unit) s1 =>
       length (contents (image s1)) = length (contents (image s)) /\
       (forall j, j < k -> (contents (image s1)).[j] = Some F32.zero) /\
       (forall j, k <= j -> (contents (image s1)).[j] = (contents (image s)).[j]) /\
       exists new, accesses s1 = new ++ accesses s /\ Forall (write_below n) new)
    (fun k (_ : unit) => wr k F32.zero) 0 n tt s) as ([] & s' & Hrun & Hinv);
    [lia | | | by exists s'].
  - split_and!; [done | intros; lia | done | by exists []].
  - intros k [] s1 Hk (Hl & Hz & Hrest & new & Hlog & Hnew).
    destruct (wr_Some s1 k F32.zero) as (t & Hwr & Ht); [lia |].
    exists tt, (State t (Write k :: accesses s1)). split; [done |]. simpl.
    rewrite Ht. split_and!.
    + by rewrite length_insert.
    + intros j Hj. destruct (decide (j = k)) as [-> | Hne].
      * apply list_lookup_insert_eq. lia.
      * rewrite list_lookup_insert_ne by lia. apply Hz. lia.
    + intros j Hj. rewrite list_lookup_insert_ne by lia. apply Hrest. lia.
    + exists (Write k :: new). split; [by rewrite Hlog |].
      apply List.Forall_cons; [simpl; lia | done].
Qed.

Section Gradient.
Variable W : N.
Variable c1 : list ChannelType.
Variable log1 : list access.
Hypothesis Hlen : W * W * 4 <= N.of_nat (length c1).
Hypothesis Hfit : W * W * 4 < SizeT.modulus.

Local Abbreviation grad_inv := (grad_inv W c1 log1).

Lemma grad_inv_eq k k' i s : k = k' -> grad_inv k i s -> grad_inv k' i s.
Proof. by intros ->. Qed.

Lemma InitImage_pixel_step y x i s :
  y < W -> x < W ->
  grad_inv (y * W + x) i s ->
  exists i' s',
    InitImage_pixel y x i s = Some (i', s') /\
    grad_inv (y * W + (x + 1)) i' s'.
Proof.
  replace (y * W + (x + 1)) with (y * W + x + 1) by lia.
  unfold InitImage_pixel.
  intros Hy Hx (-> & Hl & Hrest & Hdone & new & Hlog & Hnew).
  set (k := y * W + x) in *.
  assert (Hk : k * 4 + 3 < W * W * 4) by (subst k; nia).
  assert (Ek : forall c, c < 4 -> k *! 4 +! c = k * 4 + c).
  { intros c Hc. unfold SizeT.add, SizeT.mul.
    rewrite (wrap_small (k * 4)) by lia. rewrite wrap_small; lia. }
  rewrite !Ek by lia.
  pose proof (gradient_at_pixel W x y 0 Hx ltac:(lia)) as G0.
  pose proof (gradient_at_pixel W x y 1 Hx ltac:(lia)) as G1.
  pose proof (gradient_at_pixel W x y 2 Hx ltac:(lia)) as G2.
  pose proof (gradient_at_pixel W x y 3 Hx ltac:(lia)) as G3.
  fold k in G0, G1, G2, G3. simpl in G0, G1, G2, G3.
  step_wr. step_wr; [rewrite Ht, length_insert; lia |].
  step_wr; [rewrite Ht0, length_insert, Ht, length_insert; lia |].
  step_wr; [rewrite Ht1, length_insert, Ht0, length_insert, Ht, length_insert; lia |].
  eexists _, _. split; [reflexivity |]. unfold grad_inv. simpl.
  rewrite Ht2, Ht1, Ht0, Ht.
  split_and!.
  - unfold SizeT.add. rewrite wrap_small; lia.
  - by rewrite !length_insert.
  - intros j Hj. rewrite !list_lookup_insert_ne by lia. apply Hrest. lia.
  - intros j Hj.
    destruct (decide (j < k * 4)) as [Hold | Hnew'].
    { rewrite !list_lookup_insert_ne by lia. by apply Hdone. }
    assert (j = k * 4 + 0 \/ j = k * 4 + 1 \/ j = k * 4 + 2 \/ j = k * 4 + 3)
      as [-> | [-> | [-> | ->]]] by lia.
    + rewrite !list_lookup_insert_ne by lia.
      rewrite list_lookup_insert_eq by lia. by rewrite G0.
    + rewrite !list_lookup_insert_ne by lia.
      rewrite list_lookup_insert_eq by (rewrite ?length_insert; lia). by rewrite G1.
    + rewrite !list_lookup_insert_ne by lia.
      rewrite list_lookup_insert_eq by (rewrite ?length_insert; lia). by rewrite G2.
    + rewrite list_lookup_insert_eq by (rewrite ?length_insert; lia). by rewrite G3.
  - eexists (Write _ :: Write _ :: Write _ :: Write _ :: new).
    split; [by rewrite Hlog |].
    repeat apply List.Forall_cons; simpl; try done; lia.
Qed.

Lemma InitImage_gradient_loops s :
  grad_inv 0 0 s ->
  exists i' s',
    for_range 0 W (fun y =>
      for_range 0 W (fun x => InitImage_pixel y x)) 0 s = Some (i', s') /\
    grad_inv (W * W) i' s'.
Proof.
  intros H0.
  apply (for_range_inv (fun y => grad_inv (y * W))); [lia | done |].
  intros y i1 s1 Hy Hrow.
  destruct (for_range_inv (fun x => grad_inv (y * W + x))
              (fun x => InitImage_pixel y x)
              0 W i1 s1) as (i2 & s2 & Hrun & Hend); [lia | | |].
  - eapply grad_inv_eq; [| exact Hrow]. lia.
  - intros x i3 s3 Hx Hpix. apply InitImage_pixel_step; [lia.. | done].
  - exists i2, s2. split; [done |].
    eapply grad_inv_eq; [| exact Hend]. lia.
Qed.
End Gradient.
End InitImageRun.

Lemma Forall_write_below_mono a b (l : list access) :
  a <= b -> Forall (write_below a) l -> Forall (write_below b) l.
Proof.
  intros Hab. apply List.Forall_impl. intros [i | i]; simpl; [done | lia].
Qed.

Lemma InitImage_effect {T} `{Storage T} `{!StorageLaws T} W (s : state T) :
  W <= max_init_width ->
  TotalChannelsMipped W <= N.of_nat (length (contents (image s))) ->
  exists s', InitImage W s = Some (tt, s') /\ init_effect W s s'.
Proof.
  intros HW Hlen.
  pose proof (init_width_bound W HW) as HW'.
  pose proof (TotalChannelsMipped_exact W HW') as Htot.
  pose proof (chain_pixels_base W) as Hbase.
  pose proof (chain_channels_bound W HW') as Hb. pose proof two63_lt_modulus as H63.
  unfold InitImage.
  destruct (memset_zero_effect (TotalChannelsMipped W *! sizeof_float) s)
    as (s1 & Hrun1 & Hl1 & Hz1 & Hrest1 & new1 & Hlog1 & Hnew1);
    [by rewrite memset_count |].
  rewrite memset_count in * by done.
  rewrite (bind_Some _ _ _ _ _ Hrun1).
  rewrite (wrap_small W) by (by apply width_bound_modulus).
  destruct (InitImage_gradient_loops W (contents (image s1)) (accesses s1)
              ltac:(lia) ltac:(lia) s1)
    as (i2 & s2 & Hrun2 & _ & Hl2 & Hrest2 & Hdone2 & new2 & Hlog2 & Hnew2).
  { split_and!; [done | done | done | intros; lia | by exists []]. }
  rewrite (bind_Some _ _ _ _ _ Hrun2).
  exists s2. split; [done |]. split.
  - by rewrite Hl2.
  - done.
  - intros j Hj. rewrite Hrest2 by lia. apply Hz1. lia.
  - intros j Hj. rewrite Hrest2 by lia. apply Hrest1. lia.
  - exists (new2 ++ new1). split.
    + by rewrite Hlog2, Hlog1, app_assoc.
    + apply Forall_app. split; [| done].
      eapply Forall_write_below_mono; [| exact Hnew2]. lia.
Qed.

(** The buffer after [InitImage] does not depend on what it held before. *)
Lemma InitImage_contents {T} `{Storage T} W (s s' : state T) :
  N.of_nat (length (contents (image s))) = TotalChannelsMipped W ->
  init_effect W s s' ->
  contents (image s') = init_contents W (length (contents (image s))).
Proof.
  intros Hlen [Hl H0 Hz _ _].
  apply list_eq. intros k.
  destruct (decide (k < length (contents (image s)))%nat) as [Hk | Hk].
  - replace k with (N.to_nat (N.of_nat k)) by lia.
    rewrite init_contents_lookup by lia.
    case_decide; [by apply H0 | apply Hz; lia].
  - rewrite !lookup_ge_None_2; [done | |].
    + rewrite init_contents_length. lia.
    + rewrite Hl. lia.
Qed.

(** ** [MakeMips] *)

Lemma mip_info_offset_mono W i : fst (mip_info W i) <= fst (mip_info W (N.succ i)).
Proof. rewrite mip_info_succ. simpl. lia. Qed.

Lemma mip_info_offset_level0 W i : 1 <= i -> W * W * 4 <= fst (mip_info W i).
Proof.
  induction i as [| i IH] using N.peano_ind; [lia |]. intros _.
  destruct (decide (i = 0)) as [-> | Hnz].
  - reflexivity.
  - pose proof (mip_info_offset_mono W i). lia.
Qed.

Lemma mip_access_below W i a :
  1 <= i ->
  mip_access_ok (fst (mip_info W (i - 1))) (snd (mip_info W (i - 1)))
                (fst (mip_info W i)) (snd (mip_info W i)) a ->
  access_below (4 * chain_pixels W) a.
Proof.
  intros Hi Hok.
  assert (Hsucc : i = N.succ (i - 1)) by lia.
  pose proof (mip_info_succ W (i - 1)) as Hstep. rewrite <- Hsucc in Hstep.
  pose proof (mip_info_level_end W i) as Hend. rewrite <- mip_info_width in Hend.
  destruct (mip_info W (i - 1)) as [srcOffset srcWidth].
  destruct (mip_info W i) as [destOffset destWidth]. simpl in *.
  injection Hstep as Hoff Hwid.
  unfold access_below. destruct a as [j | j]; simpl in *; lia.
Qed.

Lemma MakeMips_effect {T} `{Storage T} `{!StorageLaws T} W (s : state T) :
  W <= max_width ->
  4 * chain_pixels W <= N.of_nat (length (contents (image s))) ->
  exists s', MakeMips W s = Some (tt, s') /\ mips_effect W s s'.
Proof.
  intros HW Hlen.
  pose proof (width_bound_modulus W HW) as Hmod.
  pose proof (size_bound W Hmod) as Hsize.
  unfold MakeMips. rewrite NumMips_exact by done.
  destruct (decide (N.size W = 0)) as [Hz | Hnz].
  { exists s. unfold for_range. rewrite Hz. simpl. split; [done |].
    split; [done.. | by exists []]. }
  destruct (for_range_inv (fun _ (_ : unit) s1 => mips_effect W s s1)
              (fun mipIndex (_ : unit) => MakeMip W mipIndex) 1 (N.size W) tt s)
    as ([] & s' & Hrun & Heff); [lia | | | by exists s'].
  { split; [done.. | by exists []]. }
  intros i [] s1 Hi [Hl H0 Hfr (new & Hlog & Hnew)].
  pose proof (mip_info_level_end W i) as Hend. rewrite <- mip_info_width in Hend.
  destruct (MakeMip_effect W i s1) as (s2 & Hrun & [Hl2 Hfr2 _ (new2 & Hlog2 & Hnew2)]);
    [done | rewrite modulus_eq; lia | rewrite Hl; lia |].
  exists tt, s2. split; [done |].
  pose proof (mip_info_offset_level0 W i ltac:(lia)) as Hlvl.
  split.
  - by rewrite Hl2.
  - intros j Hj. rewrite Hfr2 by lia. by apply H0.
  - intros j Hj. rewrite Hfr2 by lia. by apply Hfr.
  - exists (new2 ++ new). split; [by rewrite Hlog2, Hlog, app_assoc |].
    apply Forall_app. split; [| done].
    eapply List.Forall_impl; [| exact Hnew2].
    intros a. apply mip_access_below. lia.
Qed.


(** ** The properties of the program *)

Lemma IMAGE_SIZE_init_width : IMAGE_SIZE <= max_init_width.
Proof. by vm_compute. Defined.

Lemma IMAGE_SIZE_width : IMAGE_SIZE <= max_width.
Proof. by vm_compute. Defined.

Lemma IMAGE_SIZE_pow2 : is_pow2 IMAGE_SIZE.
Proof. by exists 9. Defined.

(** C4. The levels are laid out without gaps: the offset of level [i]
    plus the four channels of its [width * width] pixels is the offset of
    level [i + 1], and level 0 starts at offset 0 with the base width.
    Holds for every level index, for every base width up to [2^30]. *)
Theorem GetMipInfo_contiguous W i :
  W <= max_width ->
  fst (GetMipInfo W i) + snd (GetMipInfo W i) ^ 2 * 4 = fst (GetMipInfo W (i + 1)) /\
  GetMipInfo W 0 = (0, W).
Proof.
  intros HW. rewrite !GetMipInfo_exact by done. split.
  - rewrite N.add_1_r, mip_info_succ. simpl. by rewrite N.pow_2_r.
  - reflexivity.
Qed.

Lemma GetMipInfo_contiguous_witness :
  IMAGE_SIZE <= max_width /\
  (fst (GetMipInfo IMAGE_SIZE 3) + snd (GetMipInfo IMAGE_SIZE 3) ^ 2 * 4
   = fst (GetMipInfo IMAGE_SIZE (3 + 1)) /\
   GetMipInfo IMAGE_SIZE 0 = (0, IMAGE_SIZE)).
Proof.
  split; [exact IMAGE_SIZE_width |].
  apply (GetMipInfo_contiguous IMAGE_SIZE 3). exact IMAGE_SIZE_width.
Defined.

(** C5, as stated, fails: for the power of two [2^31] the product by
    four wraps around in [size_t], and [TotalChannelsMipped] is not the
    sum of the level sizes. *)
Lemma TotalChannelsMipped_wraps :
  is_pow2 (2 ^ 31) /\
  TotalChannelsMipped (2 ^ 31) = 6148914691236517204 /\
  chain_sum (2 ^ 31) = 24595658764946068820 /\
  TotalChannelsMipped (2 ^ 31) <> chain_sum (2 ^ 31).
Proof.
  split; [by exists 31 |].
  split; [by vm_compute |]. split; [by vm_compute |]. by vm_compute.
Qed.

(** C5, amended. For a base width [W] that is a power of two and at most
    [2^30], [TotalChannelsMipped] is the sum over [k] from [0] to
    [log2 W] of [(W / 2^k)^2 * 4]. *)
Theorem TotalChannelsMipped_sum W :
  is_pow2 W -> W <= max_width -> TotalChannelsMipped W = chain_sum W.
Proof.
  intros _ HW. by rewrite TotalChannelsMipped_exact, chain_sum_exact.
Qed.

Lemma TotalChannelsMipped_sum_witness :
  is_pow2 IMAGE_SIZE /\ IMAGE_SIZE <= max_width /\
  TotalChannelsMipped IMAGE_SIZE = chain_sum IMAGE_SIZE.
Proof.
  split; [exact IMAGE_SIZE_pow2 |]. split; [exact IMAGE_SIZE_width |].
  apply (TotalChannelsMipped_sum IMAGE_SIZE);
    [exact IMAGE_SIZE_pow2 | exact IMAGE_SIZE_width].
Defined.

(** C6. For a base width [W] that is a power of two (and a [size_t]
    value), [NumMips] is [ceil(log2 W) + 1], which is [log2 W + 1], and
    the last of these levels has width 1. *)
Theorem NumMips_pow2 W :
  is_pow2 W -> W < SizeT.modulus ->
  NumMips W = N.log2_up W + 1 /\
  NumMips W = N.log2 W + 1 /\
  snd (GetMipInfo W (NumMips W - 1)) = 1.
Proof.
  intros [k ->] HW.
  rewrite NumMips_exact by done.
  assert (Hnz : 2 ^ k <> 0) by (apply N.pow_nonzero; lia).
  rewrite N.size_log2 by done.
  rewrite N.log2_up_pow2, N.log2_pow2 by lia.
  split; [lia |]. split; [lia |].
  rewrite GetMipInfo_width, wrap_small by done.
  replace (N.succ k - 1) with k by lia.
  apply N.div_same. done.
Qed.

Lemma NumMips_pow2_witness :
  is_pow2 IMAGE_SIZE /\ IMAGE_SIZE < SizeT.modulus /\
  (NumMips IMAGE_SIZE = N.log2_up IMAGE_SIZE + 1 /\
   NumMips IMAGE_SIZE = N.log2 IMAGE_SIZE + 1 /\
   snd (GetMipInfo IMAGE_SIZE (NumMips IMAGE_SIZE - 1)) = 1).
Proof.
  assert (Hlt : IMAGE_SIZE < SizeT.modulus) by (by vm_compute).
  split; [exact IMAGE_SIZE_pow2 |]. split; [exact Hlt |].
  apply (NumMips_pow2 IMAGE_SIZE); [exact IMAGE_SIZE_pow2 | exact Hlt].
Defined.

Lemma fresh_vector_length W :
  N.of_nat (length (contents (fresh_vector W))) = TotalChannelsMipped W.
Proof. simpl. rewrite length_resize. apply N2Nat.id. Defined.

(** C7. After [InitImage] on a buffer of [TotalChannelsMipped] elements,
    every pixel [(x, y)] of level 0 holds the channels
    [(x mod 256, y mod 256, 0, 255)], and every element from index
    [W * W * 4] on, the levels 1 and up, is zero. *)
Theorem InitImage_gradient {T} `{Storage T} `{!StorageLaws T} W (t : T) :
  W <= max_init_width ->
  N.of_nat (length (contents t)) = TotalChannelsMipped W ->
  exists s',
    InitImage W (State t []) = Some (tt, s') /\
    (forall x y, x < W -> y < W ->
       (contents (image s')).[channel_index 0 W x y 0] = Some (F32.of_N (x mod 256)) /\
       (contents (image s')).[channel_index 0 W x y 1] = Some (F32.of_N (y mod 256)) /\
       (contents (image s')).[channel_index 0 W x y 2] = Some (F32.of_N 0) /\
       (contents (image s')).[channel_index 0 W x y 3] = Some (F32.of_N 255)) /\
    (forall j, W * W * 4 <= j < TotalChannelsMipped W ->
       (contents (image s')).[j] = Some F32.zero).
Proof.
  intros HW Hlen.
  destruct (InitImage_effect W (State t [])) as (s' & Hrun & [_ H0 Hz _ _]);
    [done | simpl; lia |].
  exists s'. split; [done |]. split; [| done].
  intros x y Hx Hy. unfold channel_index. simpl.
  assert (Hpix : forall c, c < 4 ->
            (contents (image s')).[(y * W + x) * 4 + c] = Some (gradient_channel x y c)).
  { intros c Hc. rewrite H0 by (by apply pixel_index_bound).
    by rewrite gradient_at_pixel. }
  split_and!; by apply Hpix.
Qed.

Lemma InitImage_gradient_witness :
  IMAGE_SIZE <= max_init_width /\
  N.of_nat (length (contents (fresh_vector IMAGE_SIZE))) = TotalChannelsMipped IMAGE_SIZE /\
  exists s',
    InitImage IMAGE_SIZE (State (fresh_vector IMAGE_SIZE) []) = Some (tt, s') /\
    (forall x y, x < IMAGE_SIZE -> y < IMAGE_SIZE ->
       (contents (image s')).[channel_index 0 IMAGE_SIZE x y 0] = Some (F32.of_N (x mod 256)) /\
       (contents (image s')).[channel_index 0 IMAGE_SIZE x y 1] = Some (F32.of_N (y mod 256)) /\
       (contents (image s')).[channel_index 0 IMAGE_SIZE x y 2] = Some (F32.of_N 0) /\
       (contents (image s')).[channel_index 0 IMAGE_SIZE x y 3] = Some (F32.of_N 255)) /\
    (forall j, IMAGE_SIZE * IMAGE_SIZE * 4 <= j < TotalChannelsMipped IMAGE_SIZE ->
       (contents (image s')).[j] = Some F32.zero).
Proof.
  split; [exact IMAGE_SIZE_init_width |].
  split; [exact (fresh_vector_length IMAGE_SIZE) |].
  apply (InitImage_gradient IMAGE_SIZE (fresh_vector IMAGE_SIZE));
    [exact IMAGE_SIZE_init_width | exact (fresh_vector_length IMAGE_SIZE)].
Defined.

(** C9. On a buffer of exactly [TotalChannelsMipped] elements,
    [InitImage] and then [MakeMips] run to their end, and every index
    they read or write is below [TotalChannelsMipped]: no access is out
    of bounds. *)
Theorem accesses_in_bounds {T} `{Storage T} `{!StorageLaws T} W (t : T) :
  W <= max_init_width ->
  N.of_nat (length (contents t)) = TotalChannelsMipped W ->
  exists s1 s2 mips_accesses,
    InitImage W (State t []) = Some (tt, s1) /\
    MakeMips W s1 = Some (tt, s2) /\
    accesses s2 = mips_accesses ++ accesses s1 /\
    Forall (access_below (TotalChannelsMipped W)) (accesses s2).
Proof.
  intros HW Hlen.
  pose proof (init_width_bound W HW) as HW'.
  pose proof (TotalChannelsMipped_exact W HW') as Htot.
  destruct (InitImage_effect W (State t [])) as (s1 & Hrun1 & [Hl1 _ _ _ (new1 & Hlog1 & Hnew1)]);
    [done | simpl; lia |].
  destruct (MakeMips_effect W s1) as (s2 & Hrun2 & [_ _ _ (new2 & Hlog2 & Hnew2)]);
    [done | rewrite Hl1; simpl; lia |].
  exists s1, s2, new2. split_and!; [done.. |].
  rewrite Hlog2, Hlog1. simpl. rewrite app_nil_r.
  apply Forall_app. split.
  - by rewrite Htot.
  - eapply List.Forall_impl; [| exact Hnew1].
    intros [i | i]; simpl; [done | by unfold access_below].
Qed.

Lemma accesses_in_bounds_witness :
  IMAGE_SIZE <= max_init_width /\
  N.of_nat (length (contents (fresh_vector IMAGE_SIZE))) = TotalChannelsMipped IMAGE_SIZE /\
  exists s1 s2 mips_accesses,
    InitImage IMAGE_SIZE (State (fresh_vector IMAGE_SIZE) []) = Some (tt, s1) /\
    MakeMips IMAGE_SIZE s1 = Some (tt, s2) /\
    accesses s2 = mips_accesses ++ accesses s1 /\
    Forall (access_below (TotalChannelsMipped IMAGE_SIZE)) (accesses s2).
Proof.
  split; [exact IMAGE_SIZE_init_width |].
  split; [exact (fresh_vector_length IMAGE_SIZE) |].
  apply (accesses_in_bounds IMAGE_SIZE (fresh_vector IMAGE_SIZE));
    [exact IMAGE_SIZE_init_width | exact (fresh_vector_length IMAGE_SIZE)].
Defined.

(** ** The three trials *)

Lemma malloc_count W :
  W <= max_init_width ->
  (sizeof_float *! TotalChannelsMipped W) / sizeof_float = TotalChannelsMipped W.
Proof.
  intros HW. rewrite <- (memset_count W HW) at 2.
  unfold SizeT.mul. by rewrite N.mul_comm.
Qed.

(** A trial on any storage of the right size ends with what the vector
    trial ends with. *)
Lemma run_trial_vector {T} `{Storage T} `{!StorageLaws T} W (t : T) :
  W <= max_init_width ->
  N.of_nat (length (contents t)) = TotalChannelsMipped W ->
  is_Some (trial_std_vector W) /\ run_trial W t = trial_std_vector W.
Proof.
  intros HW Hlen.
  pose proof (init_width_bound W HW) as HW'.
  pose proof (TotalChannelsMipped_exact W HW') as Htot.
  pose proof (fresh_vector_length W) as Hlenv.
  unfold trial_std_vector, run_trial.
  destruct (InitImage_effect W (State t [])) as (s1 & Hrun1 & Heff1);
    [done | simpl; lia |].
  destruct (InitImage_effect W (State (fresh_vector W) [])) as (v1 & Hrunv1 & Heffv1);
    [done | simpl in *; lia |].
  pose proof (InitImage_contents W (State t []) s1 Hlen Heff1) as Hc1.
  pose proof (InitImage_contents W (State (fresh_vector W) []) v1 Hlenv Heffv1) as Hcv1.
  assert (Hsame : same_state s1 v1).
  { unfold same_state. rewrite Hc1, Hcv1. f_equal. simpl in *. lia. }
  destruct (MakeMips_effect W v1) as (v2 & Hrunv2 & _);
    [done | rewrite (init_length _ _ _ Heffv1); simpl in *; lia |].
  pose proof (lockstep_MakeMips W s1 v1 Hsame) as Hstep.
  rewrite Hrunv2 in Hstep.
  rewrite (bind_Some _ _ _ _ _ Hrun1), (bind_Some _ _ _ _ _ Hrunv1), Hrunv2.
  destruct (MakeMips W s1) as [[[] s2] |]; [| done].
  destruct Hstep as [_ Hfinal]. unfold same_state in Hfinal.
  split; [eauto | by rewrite Hfinal].
Qed.

(** C10. The three trials of [main] end with the same sequence of
    channel values, whatever the [new]'d array and the [malloc]'d block
    held when they were obtained. *)
Theorem trials_agree W :
  W <= max_init_width ->
  exists final,
    trial_std_vector W = Some final /\
    (forall fresh, trial_std_array W fresh = Some final) /\
    (forall fresh, trial_c_array W fresh = Some final).
Proof.
  intros HW.
  destruct (run_trial_vector W (fresh_vector W) HW (fresh_vector_length W))
    as [[final Hfinal] _].
  exists final. split; [done |]. split.
  - intros fresh. unfold trial_std_array. rewrite <- Hfinal.
    apply run_trial_vector; [done |]. simpl.
    rewrite (array_size fresh). apply N2Nat.id.
  - intros fresh. unfold trial_c_array. rewrite <- Hfinal.
    apply run_trial_vector; [done |]. simpl.
    rewrite carray_contents_length. simpl.
    rewrite N2Nat.id. by apply malloc_count.
Qed.

Lemma trials_agree_witness :
  IMAGE_SIZE <= max_init_width /\
  exists final,
    trial_std_vector IMAGE_SIZE = Some final /\
    (forall fresh, trial_std_array IMAGE_SIZE fresh = Some final) /\
    (forall fresh, trial_c_array IMAGE_SIZE fresh = Some final).
Proof.
  split; [exact IMAGE_SIZE_init_width |].
  apply (trials_agree IMAGE_SIZE). exact IMAGE_SIZE_init_width.
Defined.

(** ** The footprint of [MakeMip] *)

(** C8, as stated, fails: [MakeMip] for level 1 reads index 0, which is
    in level 0 and not in the region of level 1. *)
Lemma MakeMip_reads_source_level :
  exists s',
    MakeMip 2 1 (State (uniform_vector 2 F32.zero) []) = Some (tt, s') /\
    In (Read 0) (accesses s') /\
    ~ level_region 2 1 0.
Proof.
  eexists. split; [by vm_compute |]. split.
  - simpl. tauto.
  - unfold level_region. vm_compute. intros [Hle _]. by apply Hle.
Qed.

(** C8, amended. For a level index [i >= 1] and a buffer that holds the
    levels up to [i], [MakeMip] writes only into the region of level
    [i], leaves every element outside that region as it was, and reads
    only from the region of level [i - 1]. *)
Theorem MakeMip_footprint {T} `{Storage T} `{!StorageLaws T} W i (s : state T) :
  W <= max_width -> 1 <= i < SizeT.modulus ->
  fst (GetMipInfo W i) + snd (GetMipInfo W i) ^ 2 * 4
    <= N.of_nat (length (contents (image s))) ->
  exists s' new,
    MakeMip W i s = Some (tt, s') /\
    accesses s' = new ++ accesses s /\
    length (contents (image s')) = length (contents (image s)) /\
    (forall j, ~ level_region W i j ->
       (contents (image s')).[j] = (contents (image s)).[j]) /\
    (forall j, In (Write j) new -> level_region W i j) /\
    (forall j, In (Read j) new -> level_region W (i - 1) j).
Proof.
  intros HW Hi Hlen. unfold level_region.
  rewrite !GetMipInfo_exact in * by done. rewrite !N.pow_2_r in *.
  destruct (MakeMip_effect W i s HW Hi Hlen)
    as (s' & Hrun & [Hl Hfr _ (new & Hlog & Hnew)]).
  exists s', new. split_and!; [done.. | | |].
  - intros j Hj. apply Hfr. lia.
  - intros j Hin. rewrite List.Forall_forall in Hnew. exact (Hnew _ Hin).
  - intros j Hin. rewrite List.Forall_forall in Hnew. exact (Hnew _ Hin).
Qed.

Lemma MakeMip_footprint_witness :
  2 <= max_width /\ 1 <= 1 < SizeT.modulus /\
  fst (GetMipInfo 2 1) + snd (GetMipInfo 2 1) ^ 2 * 4
    <= N.of_nat (length (contents (image (State (uniform_vector 2 F32.zero) [])))) /\
  exists s' new,
    MakeMip 2 1 (State (uniform_vector 2 F32.zero) []) = Some (tt, s') /\
    accesses s' = new ++ [] /\
    length (contents (image s')) = 20%nat /\
    (forall j, ~ level_region 2 1 j ->
       (contents (image s')).[j] = (uniform_vector 2 F32.zero).(vector_elems).[j]) /\
    (forall j, In (Write j) new -> level_region 2 1 j) /\
    (forall j, In (Read j) new -> level_region 2 (1 - 1) j).
Proof.
  assert (H1 : 2 <= max_width) by (by vm_compute).
  assert (H2 : 1 <= 1 < SizeT.modulus) by (by vm_compute).
  assert (H3 : fst (GetMipInfo 2 1) + snd (GetMipInfo 2 1) ^ 2 * 4
               <= N.of_nat (length (contents (image (State (uniform_vector 2 F32.zero) [])))))
    by (by vm_compute).
  split; [exact H1 |]. split; [exact H2 |]. split; [exact H3 |].
  exact (MakeMip_footprint 2 1 (State (uniform_vector 2 F32.zero) []) H1 H2 H3).
Defined.

(** ** The box filter on concrete buffers *)

(** Closed comparisons and equations over [N], by evaluation. *)
Ltac eval_N := vm_compute; repeat split; first [reflexivity | discriminate].

Lemma replicate_lookup n (v : ChannelType) j :
  j < n -> (replicate (N.to_nat n) v).[j] = Some v.
Proof. intros Hj. apply lookup_replicate_2. lia. Qed.

(** C1. In the configured program, after [InitImage], [MakeMip] for
    level 1 stores [1.5] in channel 1 of destination pixel [(0, 0)]: the
    average of channel 0 of the four source pixels plus the channel
    index.  The average of channel 1 of those four pixels, which a box
    filter stores there, is [0.5]. *)
Theorem MakeMip_adds_channel_to_value :
  exists s1 s2,
    InitImage IMAGE_SIZE (State (fresh_vector IMAGE_SIZE) []) = Some (tt, s1) /\
    MakeMip IMAGE_SIZE 1 s1 = Some (tt, s2) /\
    (contents (image s2)).[channel_index (fst (GetMipInfo IMAGE_SIZE 1))
                                          (snd (GetMipInfo IMAGE_SIZE 1)) 0 0 1]
      = Some (F32.halves 3) /\
    box_average (contents (image s1)) (fst (GetMipInfo IMAGE_SIZE 0))
                (snd (GetMipInfo IMAGE_SIZE 0)) 0 0 1
      = Some F32.half.
Proof.
  destruct (InitImage_effect IMAGE_SIZE (State (fresh_vector IMAGE_SIZE) []))
    as (s1 & Hrun1 & [Hl1 H0 _ _ _]).
  { exact IMAGE_SIZE_init_width. }
  { cbn [image]. rewrite fresh_vector_length. lia. }
  assert (Hlen1 : N.of_nat (length (contents (image s1))) = 1398100).
  { rewrite Hl1. cbn [image]. by rewrite fresh_vector_length. }
  destruct (MakeMip_effect IMAGE_SIZE 1 s1) as (s2 & Hrun2 & [_ _ Hwritten _]).
  { exact IMAGE_SIZE_width. }
  { eval_N. }
  { rewrite Hlen1. eval_N. }
  exists s1, s2. split; [exact Hrun1 |]. split; [exact Hrun2 |].
  change (GetMipInfo IMAGE_SIZE 1) with (1048576, 256).
  change (GetMipInfo IMAGE_SIZE 0) with (0, 512).
  change (mip_info IMAGE_SIZE 1) with (1048576, 256) in Hwritten.
  change (mip_info IMAGE_SIZE (1 - 1)) with (0, 512) in Hwritten.
  cbn [fst snd] in *. split.
  - rewrite (Hwritten 0 0 1) by eval_N.
    unfold box_value. rewrite !H0 by eval_N. vm_compute. reflexivity.
  - unfold box_average. rewrite !H0 by eval_N. vm_compute. reflexivity.
Qed.

(** C2. For base width 4 the chain has the widths 4, 2, 1 and
    [(16 + 4 + 1) * 4 = 84] elements.  After [InitImage] and [MakeMips],
    pixel [(0, 0)] of level 1 holds [(0.5, 1.5, 2.5, 3.5)]; the averages
    of the four level-0 pixels per channel are [(0.5, 0.5, 0, 255)]. *)
Theorem base_width_4_level_1 :
  TotalChannelsMipped 4 = 84 /\ NumMips 4 = 3 /\
  GetMipInfo 4 0 = (0, 4) /\ GetMipInfo 4 1 = (64, 2) /\ GetMipInfo 4 2 = (80, 1) /\
  exists s1 s2,
    InitImage 4 (State (fresh_vector 4) []) = Some (tt, s1) /\
    MakeMips 4 s1 = Some (tt, s2) /\
    length (contents (image s2)) = 84%nat /\
    ((contents (image s2)).[channel_index 64 2 0 0 0] = Some F32.half /\
     (contents (image s2)).[channel_index 64 2 0 0 1] = Some (F32.halves 3) /\
     (contents (image s2)).[channel_index 64 2 0 0 2] = Some (F32.halves 5) /\
     (contents (image s2)).[channel_index 64 2 0 0 3] = Some (F32.halves 7)) /\
    (box_average (contents (image s1)) 0 4 0 0 0 = Some F32.half /\
     box_average (contents (image s1)) 0 4 0 0 1 = Some F32.half /\
     box_average (contents (image s1)) 0 4 0 0 2 = Some F32.zero /\
     box_average (contents (image s1)) 0 4 0 0 3 = Some (F32.of_N 255)).
Proof.
  do 5 (split; [vm_compute; reflexivity |]).
  destruct (InitImage 4 (State (fresh_vector 4) [])) as [[[] s1] |] eqn:Hrun1;
    [| vm_compute in Hrun1; discriminate].
  vm_compute in Hrun1. injection Hrun1 as <-.
  eexists _, _. split; [reflexivity |].
  split; [vm_compute; reflexivity |].
  split_and!; vm_compute; reflexivity.
Qed.

(** C3. On a buffer of the configured size in which every element is
    [7], [MakeMip] for level 1 stores [(7, 8, 9, 10)] in destination
    pixel [(0, 0)]: the constant is reproduced in channel 0 only. *)
Theorem MakeMip_uniform_source :
  exists s',
    MakeMip IMAGE_SIZE 1 (State (uniform_vector IMAGE_SIZE (F32.of_N 7)) []) = Some (tt, s') /\
    (contents (image s')).[channel_index (fst (GetMipInfo IMAGE_SIZE 1))
                                          (snd (GetMipInfo IMAGE_SIZE 1)) 0 0 0]
      = Some (F32.of_N 7) /\
    (contents (image s')).[channel_index (fst (GetMipInfo IMAGE_SIZE 1))
                                          (snd (GetMipInfo IMAGE_SIZE 1)) 0 0 1]
      = Some (F32.of_N 8) /\
    (contents (image s')).[channel_index (fst (GetMipInfo IMAGE_SIZE 1))
                                          (snd (GetMipInfo IMAGE_SIZE 1)) 0 0 2]
      = Some (F32.of_N 9) /\
    (contents (image s')).[channel_index (fst (GetMipInfo IMAGE_SIZE 1))
                                          (snd (GetMipInfo IMAGE_SIZE 1)) 0 0 3]
      = Some (F32.of_N 10).
Proof.
  set (s := State (uniform_vector IMAGE_SIZE (F32.of_N 7)) []).
  assert (Hlen : N.of_nat (length (contents (image s))) = 1398100).
  { subst s. cbn [image contents vector_storage uniform_vector vector_elems].
    rewrite length_replicate, N2Nat.id. reflexivity. }
  destruct (MakeMip_effect IMAGE_SIZE 1 s) as (s' & Hrun & [_ _ Hwritten _]).
  { exact IMAGE_SIZE_width. }
  { eval_N. }
  { rewrite Hlen. eval_N. }
  exists s'. split; [exact Hrun |].
  change (GetMipInfo IMAGE_SIZE 1) with (1048576, 256).
  change (mip_info IMAGE_SIZE 1) with (1048576, 256) in Hwritten.
  change (mip_info IMAGE_SIZE (1 - 1)) with (0, 512) in Hwritten.
  cbn [fst snd] in *.
  assert (Hbox : forall c, c < 4 ->
            (contents (image s')).[channel_index 1048576 256 0 0 c] =
            box_value (replicate (N.to_nat (TotalChannelsMipped IMAGE_SIZE)) (F32.of_N 7))
                      0 512 0 0 c).
  { intros c Hc. rewrite (Hwritten 0 0 c) by (exact Hc || eval_N). reflexivity. }
  clearbody s. clear Hwritten Hrun Hlen.
  split_and!; (rewrite Hbox by eval_N); unfold box_value;
    rewrite !replicate_lookup by eval_N; vm_compute; reflexivity.
Qed.


(** ** Further properties of the addressing *)

Lemma size_lt_pow2 W i : N.size W <= i -> W < 2 ^ i.
Proof.
  intros Hi. eapply N.lt_le_trans; [apply N.size_gt |].
  apply N.pow_le_mono_r; [lia | done].
Qed.

Lemma width_zero_beyond W i : N.size W <= i -> W / 2 ^ i = 0.
Proof. intros Hi. apply N.div_small. by apply size_lt_pow2. Qed.

Lemma width_pos_within W i : i < N.size W -> 1 <= W / 2 ^ i.
Proof.
  intros Hi.
  destruct (decide (W = 0)) as [-> | Hnz]; [simpl in Hi; lia |].
  rewrite N.size_log2 in Hi by done.
  assert (Hpow : 2 ^ i <= W) by (apply N.log2_le_pow2; lia).
  assert (0 < W / 2 ^ i); [| lia].
  apply N.div_str_pos. split; [| done].
  apply N.neq_0_lt_0, N.pow_nonzero. lia.
Qed.

Lemma mip_info_offset_le W i d : fst (mip_info W i) <= fst (mip_info W (i + d)).
Proof.
  induction d as [| d IH] using N.peano_ind.
  - by rewrite N.add_0_r.
  - rewrite N.add_succ_r. pose proof (mip_info_offset_mono W (i + d)). lia.
Qed.

Lemma mip_info_end_le W i j :
  i < j ->
  fst (mip_info W i) + snd (mip_info W i) * snd (mip_info W i) * 4 <= fst (mip_info W j).
Proof.
  intros Hij.
  pose proof (mip_info_offset_le W (N.succ i) (j - N.succ i)) as Hle.
  replace (N.succ i + (j - N.succ i)) with j in Hle by lia.
  rewrite mip_info_succ in Hle. simpl in Hle. done.
Qed.

Lemma chain_pixels_pow2 k : 3 * chain_pixels (2 ^ k) + 1 = 4 * (2 ^ k * 2 ^ k).
Proof.
  induction k as [| k IH] using N.peano_ind; [reflexivity |].
  assert (Hnz : 2 ^ N.succ k <> 0) by (apply N.pow_nonzero; lia).
  rewrite (chain_pixels_step _ Hnz).
  replace (2 ^ N.succ k / 2) with (2 ^ k).
  2: { rewrite N.pow_succ_r', N.mul_comm, N.div_mul; lia. }
  rewrite N.pow_succ_r'. lia.
Qed.

(** X1. [NumMips] is the number of binary digits of the base width: 0
    for width 0, and [floor(log2 W) + 1] for every other width, power of
    two or not; it never exceeds 64. *)
Theorem NumMips_floor_log2 W :
  W < SizeT.modulus ->
  (W = 0 -> NumMips W = 0) /\
  (W <> 0 -> NumMips W = N.log2 W + 1) /\
  NumMips W <= 64.
Proof.
  intros HW. rewrite NumMips_exact by done. split_and!.
  - by intros ->.
  - intros Hnz. rewrite N.size_log2 by done. lia.
  - by apply size_bound.
Qed.

Lemma NumMips_floor_log2_witness :
  3 < SizeT.modulus /\
  ((3 = 0 -> NumMips 3 = 0) /\ (3 <> 0 -> NumMips 3 = N.log2 3 + 1) /\ NumMips 3 <= 64).
Proof.
  assert (H : 3 < SizeT.modulus) by (by vm_compute).
  split; [exact H |]. exact (NumMips_floor_log2 3 H).
Defined.

(** X2. Level [i] is [W / 2^i] pixels wide, and the levels that
    [NumMips] counts are exactly the levels of width at least 1. *)
Theorem GetMipInfo_level_width W i :
  W < SizeT.modulus ->
  snd (GetMipInfo W i) = W / 2 ^ i /\
  (i < NumMips W <-> 1 <= snd (GetMipInfo W i)).
Proof.
  intros HW. rewrite GetMipInfo_width, wrap_small, NumMips_exact by done.
  split; [done |]. split.
  - apply width_pos_within.
  - intros Hpos. destruct (decide (i < N.size W)) as [Hlt | Hge]; [done |].
    rewrite width_zero_beyond in Hpos by lia. lia.
Qed.

Lemma GetMipInfo_level_width_witness :
  IMAGE_SIZE < SizeT.modulus /\
  (snd (GetMipInfo IMAGE_SIZE 9) = IMAGE_SIZE / 2 ^ 9 /\
   (9 < NumMips IMAGE_SIZE <-> 1 <= snd (GetMipInfo IMAGE_SIZE 9))).
Proof.
  assert (H : IMAGE_SIZE < SizeT.modulus) by (by vm_compute).
  split; [exact H |]. exact (GetMipInfo_level_width IMAGE_SIZE 9 H).
Defined.

Lemma GetMipInfo_past_end W i :
  W <= max_width -> N.size W <= i ->
  GetMipInfo W i = (TotalChannelsMipped W, 0).
Proof.
  intros HW Hi.
  rewrite GetMipInfo_exact, TotalChannelsMipped_exact by done.
  pose proof (mip_info_offset W i) as Ho. pose proof (mip_info_width W i) as Hw.
  rewrite width_zero_beyond in Ho, Hw by done.
  destruct (mip_info W i) as [o w]. simpl in *. f_equal; lia.
Qed.

(** X3. [GetMipInfo] does no bounds check: asked for a level index at or
    beyond [NumMips], it returns width 0 and the offset
    [TotalChannelsMipped], the end of the buffer.  In particular the
    levels fill the buffer exactly. *)
Theorem GetMipInfo_beyond_chain W i :
  W <= max_width -> NumMips W <= i ->
  GetMipInfo W i = (TotalChannelsMipped W, 0).
Proof.
  intros HW Hi.
  rewrite NumMips_exact in Hi by (by apply width_bound_modulus).
  by apply GetMipInfo_past_end.
Qed.

Lemma GetMipInfo_beyond_chain_witness :
  IMAGE_SIZE <= max_width /\ NumMips IMAGE_SIZE <= 10 /\
  GetMipInfo IMAGE_SIZE 10 = (TotalChannelsMipped IMAGE_SIZE, 0).
Proof.
  assert (H : NumMips IMAGE_SIZE <= 10) by (by vm_compute).
  split; [exact IMAGE_SIZE_width |]. split; [exact H |].
  exact (GetMipInfo_beyond_chain IMAGE_SIZE 10 IMAGE_SIZE_width H).
Defined.

(** X4. The regions of two different levels do not overlap. *)
Theorem level_regions_disjoint W i j k :
  W <= max_width -> i < j ->
  level_region W i k -> ~ level_region W j k.
Proof.
  intros HW Hij. unfold level_region.
  rewrite !GetMipInfo_exact by done. rewrite !N.pow_2_r.
  pose proof (mip_info_end_le W i j Hij). lia.
Qed.

Lemma level_regions_disjoint_witness :
  IMAGE_SIZE <= max_width /\ 0 < 1 /\ level_region IMAGE_SIZE 0 1048575 /\
  ~ level_region IMAGE_SIZE 1 1048575.
Proof.
  assert (H1 : 0 < 1) by (by vm_compute).
  assert (H2 : level_region IMAGE_SIZE 0 1048575) by (by vm_compute).
  split; [exact IMAGE_SIZE_width |]. split; [exact H1 |]. split; [exact H2 |].
  exact (level_regions_disjoint IMAGE_SIZE 0 1 1048575 IMAGE_SIZE_width H1 H2).
Defined.

(** X5. The whole chain has at least the pixels of the base image and
    at most a third more. *)
Theorem TotalPixelsMipped_bounds W :
  W <= max_width ->
  W * W <= TotalPixelsMipped W /\ 3 * TotalPixelsMipped W <= 4 * (W * W).
Proof.
  intros HW. rewrite TotalPixelsMipped_exact by done.
  split; [apply chain_pixels_base | apply chain_pixels_bound].
Qed.

Lemma TotalPixelsMipped_bounds_witness :
  IMAGE_SIZE <= max_width /\
  (IMAGE_SIZE * IMAGE_SIZE <= TotalPixelsMipped IMAGE_SIZE /\
   3 * TotalPixelsMipped IMAGE_SIZE <= 4 * (IMAGE_SIZE * IMAGE_SIZE)).
Proof.
  split; [exact IMAGE_SIZE_width |].
  exact (TotalPixelsMipped_bounds IMAGE_SIZE IMAGE_SIZE_width).
Defined.

(** X6. For a base width that is a power of two the pixel count of the
    chain has the closed form [(4 * W^2 - 1) / 3]. *)
Theorem TotalPixelsMipped_pow2 W :
  is_pow2 W -> W <= max_width ->
  3 * TotalPixelsMipped W + 1 = 4 * (W * W).
Proof.
  intros [k ->] HW. rewrite TotalPixelsMipped_exact by done.
  apply chain_pixels_pow2.
Qed.

Lemma TotalPixelsMipped_pow2_witness :
  is_pow2 IMAGE_SIZE /\ IMAGE_SIZE <= max_width /\
  3 * TotalPixelsMipped IMAGE_SIZE + 1 = 4 * (IMAGE_SIZE * IMAGE_SIZE).
Proof.
  split; [exact IMAGE_SIZE_pow2 |]. split; [exact IMAGE_SIZE_width |].
  exact (TotalPixelsMipped_pow2 IMAGE_SIZE IMAGE_SIZE_pow2 IMAGE_SIZE_width).
Defined.

(** ** Runs that fail, and runs that do nothing *)

Section Failure.
Context {T : Type} `{Storage T} `{!StorageLaws T}.

Lemma bind_None {A B} (m : M T A) (k : A -> M T B) s :
  m s = None -> bind m k s = None.
Proof. unfold bind. by intros ->. Qed.

Lemma rd_None s i :
  (length (contents (image s)) <= N.to_nat i)%nat -> rd i s = None.
Proof.
  intros Hi. unfold rd. rewrite load_contents.
  by rewrite lookup_ge_None_2.
Qed.

Lemma wr_None s i v :
  (length (contents (image s)) <= N.to_nat i)%nat -> wr i v s = None.
Proof.
  intros Hi. unfold wr.
  pose proof (store_contents (image s) i v) as Hst.
  rewrite decide_False in Hst by lia.
  by destruct (store (image s) i v).
Qed.

Lemma for_range_first_None {L} (body : N -> L -> M T L) lo hi acc s :
  lo < hi -> body lo acc s = None -> for_range lo hi body acc s = None.
Proof.
  intros Hlt Hb. unfold for_range.
  destruct (N.to_nat (hi - lo)) as [| n] eqn:Hn; [lia |].
  simpl. by apply bind_None.
Qed.

Lemma for_range_empty {L} (body : N -> L -> M T L) lo hi acc s :
  hi <= lo -> for_range lo hi body acc s = Some (acc, s).
Proof.
  intros Hle. unfold for_range.
  replace (N.to_nat (hi - lo)) with 0%nat by lia. reflexivity.
Qed.

Lemma for_from_add {L} (body : N -> L -> M T L) a b lo acc s :
  for_from (a + b) lo body acc s =
  match for_from a lo body acc s with
  | Some (acc', s') => for_from b (lo + N.of_nat a) body acc' s'
  | None => None
  end.
Proof.
  revert lo acc s. induction a as [| a IH]; intros lo acc s.
  - simpl. unfold ret. by rewrite N.add_0_r.
  - change (S a + b)%nat with (S (a + b)). simpl. unfold bind.
    destruct (body lo acc s) as [[acc1 s1] |]; [| done].
    rewrite IH. replace (lo + 1 + N.of_nat a) with (lo + N.pos (Pos.of_succ_nat a)) by lia.
    done.
Qed.
End Failure.

(** X7. [MakeMip] for a level index at or beyond [NumMips] does
    nothing: the destination width is 0, no element is read or written,
    and the call returns on any buffer, even an empty one. *)
Theorem MakeMip_beyond_chain {T} `{Storage T} W i (s : state T) :
  W < SizeT.modulus -> NumMips W <= i -> MakeMip W i s = Some (tt, s).
Proof.
  intros HW Hi. rewrite NumMips_exact in Hi by done.
  unfold MakeMip.
  pose proof (GetMipInfo_width W i) as Hw.
  rewrite wrap_small, width_zero_beyond in Hw by done.
  destruct (GetMipInfo W (i -! 1)) as [srcOffset srcWidth].
  destruct (GetMipInfo W i) as [destOffset destWidth]. simpl in Hw. subst destWidth.
  reflexivity.
Qed.

Lemma MakeMip_beyond_chain_witness :
  IMAGE_SIZE < SizeT.modulus /\ NumMips IMAGE_SIZE <= 10 /\
  MakeMip IMAGE_SIZE 10 (State (StdVector []) []) = Some (tt, State (StdVector []) []).
Proof.
  assert (H1 : IMAGE_SIZE < SizeT.modulus) by (by vm_compute).
  assert (H2 : NumMips IMAGE_SIZE <= 10) by (by vm_compute).
  split; [exact H1 |]. split; [exact H2 |].
  exact (MakeMip_beyond_chain IMAGE_SIZE 10 (State (StdVector []) []) H1 H2).
Defined.

(** X8. [MakeMip] must not be called for level 0: [mipIndex - 1] wraps
    around to [2^64 - 1], the source level is then the empty level at
    the end of the buffer, and the first tap reads index
    [TotalChannelsMipped], which is out of bounds in a buffer of that
    many elements. *)
Theorem MakeMip_level_0_out_of_bounds {T} `{Storage T} `{!StorageLaws T} W (s : state T) :
  1 <= W <= max_width ->
  N.of_nat (length (contents (image s))) <= TotalChannelsMipped W ->
  MakeMip W 0 s = None.
Proof.
  intros [HW1 HW] Hlen.
  pose proof (width_bound_modulus W HW) as Hmod.
  pose proof (size_bound W Hmod) as Hsize.
  pose proof (TotalChannelsMipped_exact W HW) as Htot.
  pose proof (chain_channels_bound W HW) as Hb. pose proof two63_lt_modulus as H63.
  unfold MakeMip.
  change (0 -! 1) with 18446744073709551615.
  rewrite (GetMipInfo_past_end W 18446744073709551615) by (done || lia).
  rewrite GetMipInfo_exact by done.
  change (mip_info W 0) with (0, W).
  apply bind_None.
  apply for_range_first_None; [lia |].
  apply for_range_first_None; [lia |].
  apply for_range_first_None; [lia |].
  unfold MakeMip_channel. apply bind_None.
  change ((0 *! 2 +! 0) *! 0 +! 0 *! 2 +! 0) with 0.
  change (0 *! 4) with 0.
  unfold SizeT.add. rewrite N.add_0_l, wrap_small by lia.
  apply rd_None. lia.
Qed.

Lemma MakeMip_level_0_out_of_bounds_witness :
  1 <= 2 <= max_width /\
  N.of_nat (length (contents (image (State (uniform_vector 2 F32.zero) []))))
    <= TotalChannelsMipped 2 /\
  MakeMip 2 0 (State (uniform_vector 2 F32.zero) []) = None.
Proof.
  assert (H1 : 1 <= 2 <= max_width) by (by vm_compute).
  assert (H2 : N.of_nat (length (contents (image (State (uniform_vector 2 F32.zero) []))))
               <= TotalChannelsMipped 2) by (by vm_compute).
  split; [exact H1 |]. split; [exact H2 |].
  exact (MakeMip_level_0_out_of_bounds 2 (State (uniform_vector 2 F32.zero) []) H1 H2).
Defined.

(** X9. [InitImage] needs the whole chain: on a buffer with fewer than
    [TotalChannelsMipped] elements the [memset] runs past the end. *)
Theorem InitImage_short_buffer {T} `{Storage T} `{!StorageLaws T} W (s : state T) :
  W <= max_init_width ->
  N.of_nat (length (contents (image s))) < TotalChannelsMipped W ->
  InitImage W s = None.
Proof.
  intros HW Hlen. unfold InitImage. apply bind_None.
  unfold memset_zero. rewrite memset_count by done. unfold for_range.
  set (n := length (contents (image s))) in *.
  replace (N.to_nat (TotalChannelsMipped W - 0))
    with (n + S (N.to_nat (TotalChannelsMipped W) - S n))%nat by lia.
  rewrite for_from_add.
  destruct (for_from_inv
    (fun _ (_ : unit) s1 => length (contents (image s1)) = n)
    (fun k (_ : unit) => wr k F32.zero) n 0 tt s) as ([] & s1 & Hrun & Hl1); [done | |].
  - intros k [] s0 Hk Hl0.
    destruct (wr_Some s0 k F32.zero) as (t & Hwr & Ht); [lia |].
    exists tt, (State t (Write k :: accesses s0)). split; [done |]. simpl.
    by rewrite Ht, length_insert.
  - rewrite Hrun. simpl. apply bind_None. apply wr_None. lia.
Qed.

Lemma InitImage_short_buffer_witness :
  2 <= max_init_width /\
  N.of_nat (length (contents (image (State (StdVector (replicate 19 F32.zero)) []))))
    < TotalChannelsMipped 2 /\
  InitImage 2 (State (StdVector (replicate 19 F32.zero)) []) = None.
Proof.
  assert (H1 : 2 <= max_init_width) by (by vm_compute).
  assert (H2 : N.of_nat (length (contents (image (State (StdVector (replicate 19 F32.zero)) []))))
               < TotalChannelsMipped 2) by (by vm_compute).
  split; [exact H1 |]. split; [exact H2 |].
  exact (InitImage_short_buffer 2 (State (StdVector (replicate 19 F32.zero)) []) H1 H2).
Defined.

(** ** [InitImage] overwrites, and the storage does not matter *)

(** X10. [InitImage] only writes: what the buffer holds afterwards is
    the gradient followed by zeros, whatever it held before, and a
    second [InitImage] leaves it as the first one did. *)
Theorem InitImage_idempotent {T} `{Storage T} `{!StorageLaws T} W (t : T) :
  W <= max_init_width ->
  N.of_nat (length (contents t)) = TotalChannelsMipped W ->
  exists s1 s2,
    InitImage W (State t []) = Some (tt, s1) /\
    contents (image s1) = init_contents W (length (contents t)) /\
    Forall (write_below (TotalChannelsMipped W)) (accesses s1) /\
    InitImage W s1 = Some (tt, s2) /\
    contents (image s2) = contents (image s1).
Proof.
  intros HW Hlen.
  destruct (InitImage_effect W (State t [])) as (s1 & Hrun1 & Heff1);
    [done | simpl; lia |].
  pose proof (InitImage_contents W (State t []) s1 Hlen Heff1) as Hc1.
  pose proof (init_length _ _ _ Heff1) as Hl1. simpl in Hl1, Hc1.
  destruct (InitImage_effect W s1) as (s2 & Hrun2 & Heff2);
    [done | rewrite Hl1; lia |].
  assert (Hlen1 : N.of_nat (length (contents (image s1))) = TotalChannelsMipped W)
    by (by rewrite Hl1).
  pose proof (InitImage_contents W s1 s2 Hlen1 Heff2) as Hc2.
  exists s1, s2. split_and!; [done | done | | done |].
  - destruct (init_log _ _ _ Heff1) as (new & Hlog & Hnew).
    simpl in Hlog. by rewrite Hlog, app_nil_r.
  - by rewrite Hc2, Hl1, Hc1.
Qed.

Lemma InitImage_idempotent_witness :
  IMAGE_SIZE <= max_init_width /\
  N.of_nat (length (contents (fresh_vector IMAGE_SIZE))) = TotalChannelsMipped IMAGE_SIZE /\
  exists s1 s2,
    InitImage IMAGE_SIZE (State (fresh_vector IMAGE_SIZE) []) = Some (tt, s1) /\
    contents (image s1) =
      init_contents IMAGE_SIZE (length (contents (fresh_vector IMAGE_SIZE))) /\
    Forall (write_below (TotalChannelsMipped IMAGE_SIZE)) (accesses s1) /\
    InitImage IMAGE_SIZE s1 = Some (tt, s2) /\
    contents (image s2) = contents (image s1).
Proof.
  split; [exact IMAGE_SIZE_init_width |].
  split; [exact (fresh_vector_length IMAGE_SIZE) |].
  exact (InitImage_idempotent IMAGE_SIZE (fresh_vector IMAGE_SIZE)
           IMAGE_SIZE_init_width (fresh_vector_length IMAGE_SIZE)).
Defined.



(** ** What the levels hold after [MakeMip] and [MakeMips] *)

Lemma mip_info_pred W i :
  1 <= i ->
  fst (mip_info W (i - 1)) + snd (mip_info W (i - 1)) * snd (mip_info W (i - 1)) * 4
    = fst (mip_info W i) /\
  2 * snd (mip_info W i) <= snd (mip_info W (i - 1)).
Proof.
  intros Hi.
  assert (Hsucc : i = N.succ (i - 1)) by lia.
  pose proof (mip_info_succ W (i - 1)) as Hstep. rewrite <- Hsucc in Hstep.
  rewrite Hstep. simpl. split; [done |]. apply N.Div0.mul_div_le.
Qed.

Lemma box_value_agree (l l' : list ChannelType) srcOffset srcWidth destWidth x y c :
  x < destWidth -> y < destWidth -> 2 * destWidth <= srcWidth ->
  (forall j, srcOffset <= j < srcOffset + srcWidth * srcWidth * 4 -> l.[j] = l'.[j]) ->
  box_value l srcOffset srcWidth x y c = box_value l' srcOffset srcWidth x y c.
Proof.
  intros Hx Hy Hhalf Hagree. unfold box_value, channel_index.
  rewrite !Hagree by nia. reflexivity.
Qed.

Lemma level_region_decode off w j :
  off <= j < off + w * w * 4 ->
  exists x y c, x < w /\ y < w /\ c < 4 /\ j = channel_index off w x y c.
Proof.
  intros Hj.
  assert (Hw : w <> 0) by (intros ->; lia).
  set (q := j - off). set (p := q / 4).
  pose proof (N.div_mod q 4 ltac:(lia)) as Hq. fold p in Hq.
  pose proof (N.mod_lt q 4 ltac:(lia)) as Hc.
  pose proof (N.div_mod p w Hw) as Hp.
  pose proof (N.mod_lt p w Hw) as Hx.
  assert (Hpw : p < w * w) by (subst p q; apply N.Div0.div_lt_upper_bound; lia).
  assert (Hy : p / w < w) by (apply N.Div0.div_lt_upper_bound; lia).
  exists (p mod w), (p / w), (q mod 4). unfold channel_index.
  split_and!; [done.. |]. subst q. lia.
Qed.

Lemma F32_add_channel_0 a : a <> S754_zero true -> F32.add a (F32.of_N 0) = a.
Proof. destruct a as [[] | [] | | [] m e]; intros Hnz; try reflexivity; done. Qed.

Lemma box_value_channel_0 (l : list ChannelType) srcOffset srcWidth x y :
  (forall j, l.[j] <> Some (S754_zero true)) ->
  box_value l srcOffset srcWidth x y 0 = box_average l srcOffset srcWidth x y 0.
Proof.
  intros Hnz. unfold box_value, box_average.
  destruct (l.[channel_index srcOffset srcWidth (2 * x) (2 * y) 0]) as [a |] eqn:Ha;
    [| done].
  destruct (l.[channel_index srcOffset srcWidth (2 * x + 1) (2 * y) 0]) as [b |] eqn:Hb;
    [| done].
  destruct (l.[channel_index srcOffset srcWidth (2 * x) (2 * y + 1) 0]) as [c |] eqn:Hc;
    [| done].
  destruct (l.[channel_index srcOffset srcWidth (2 * x + 1) (2 * y + 1) 0]) as [d |] eqn:Hd;
    [| done].
  simpl. rewrite !F32_add_channel_0; [done | | | |]; intros ->.
  - by apply (Hnz _ Hd).
  - by apply (Hnz _ Hc).
  - by apply (Hnz _ Hb).
  - by apply (Hnz _ Ha).
Qed.

(** X12. After [MakeMips] level 0 is as it was, and every destination
    pixel of every level [i] from 1 to [NumMips - 1] holds what the box
    filter of [MakeMip] makes of level [i - 1] as it stands in the final
    buffer: later steps disturb neither a finished level nor its
    source. *)
Theorem MakeMips_levels {T} `{Storage T} `{!StorageLaws T} W (s : state T) :
  W <= max_width ->
  TotalChannelsMipped W <= N.of_nat (length (contents (image s))) ->
  exists s',
    MakeMips W s = Some (tt, s') /\
    length (contents (image s')) = length (contents (image s)) /\
    (forall j, j < W * W * 4 -> (contents (image s')).[j] = (contents (image s)).[j]) /\
    (forall i x y c,
       1 <= i < NumMips W ->
       x < snd (GetMipInfo W i) -> y < snd (GetMipInfo W i) -> c < 4 ->
       (contents (image s')).[channel_index (fst (GetMipInfo W i))
                                             (snd (GetMipInfo W i)) x y c] =
       box_value (contents (image s')) (fst (GetMipInfo W (i - 1)))
                 (snd (GetMipInfo W (i - 1))) x y c).
Proof.
  intros HW Hlen.
  pose proof (width_bound_modulus W HW) as Hmod.
  pose proof (size_bound W Hmod) as Hsize.
  rewrite TotalChannelsMipped_exact in Hlen by done.
  unfold MakeMips. rewrite NumMips_exact by done.
  destruct (decide (N.size W = 0)) as [Hz | Hnz].
  { exists s. rewrite for_range_empty by lia. split_and!; [done.. |].
    intros i x y c Hi. lia. }
  destruct (for_range_inv
    (fun k (_ : unit) s1 =>
       length (contents (image s1)) = length (contents (image s)) /\
       (forall j, j < W * W * 4 -> (contents (image s1)).[j] = (contents (image s)).[j]) /\
       (forall i x y c,
          1 <= i < k ->
          x < snd (mip_info W i) -> y < snd (mip_info W i) -> c < 4 ->
          (contents (image s1)).[channel_index (fst (mip_info W i))
                                                (snd (mip_info W i)) x y c] =
          box_value (contents (image s1)) (fst (mip_info W (i - 1)))
                    (snd (mip_info W (i - 1))) x y c))
    (fun mipIndex (_ : unit) => MakeMip W mipIndex) 1 (N.size W) tt s)
    as ([] & s' & Hrun & Hl & H0 & Hlev); [lia | | |].
  { split_and!; [done.. |]. intros i x y c Hi. lia. }
  { intros k [] s1 Hk (Hl & H0 & Hlev).
    pose proof (mip_info_level_end W k) as Hend. rewrite <- mip_info_width in Hend.
    destruct (MakeMip_effect W k s1) as (s2 & Hrun & [Hl2 Hfr2 Hw2 _]);
      [done | rewrite modulus_eq; lia | rewrite Hl; lia |].
    exists tt, s2. split; [done |].
    pose proof (mip_info_offset_level0 W k ltac:(lia)) as Hlvl.
    split_and!.
    - by rewrite Hl2.
    - intros j Hj. rewrite Hfr2 by lia. by apply H0.
    - intros i x y c Hi Hx Hy Hc.
      destruct (mip_info_pred W i ltac:(lia)) as [Hsrc Hhalf].
      assert (Hsrc_k : fst (mip_info W (i - 1)) +
                       snd (mip_info W (i - 1)) * snd (mip_info W (i - 1)) * 4
                       <= fst (mip_info W k)).
      { destruct (decide (i = k)) as [-> | Hne]; [lia |].
        pose proof (mip_info_end_le W (i - 1) k ltac:(lia)). lia. }
      rewrite <- (box_value_agree (contents (image s1)) (contents (image s2))
                    _ _ (snd (mip_info W i))) by
        (done || (intros j Hj; symmetry; apply Hfr2; lia)).
      destruct (decide (i = k)) as [-> | Hne].
      + by apply Hw2.
      + pose proof (mip_info_end_le W i k ltac:(lia)) as Hik.
        pose proof (pixel_index_bound _ x y c Hx Hy Hc) as Hpix.
        rewrite Hfr2 by (unfold channel_index; lia).
        apply Hlev; [lia | done..]. }
  exists s'. split; [done |]. split_and!; [done.. |].
  intros i x y c Hi. rewrite !GetMipInfo_exact by done. by apply Hlev.
Qed.

Lemma MakeMips_levels_witness :
  2 <= max_width /\
  TotalChannelsMipped 2
    <= N.of_nat (length (contents (image (State (uniform_vector 2 F32.zero) [])))) /\
  exists s',
    MakeMips 2 (State (uniform_vector 2 F32.zero) []) = Some (tt, s') /\
    length (contents (image s')) = 20%nat /\
    (forall j, j < 2 * 2 * 4 ->
       (contents (image s')).[j] = (vector_elems (uniform_vector 2 F32.zero)).[j]) /\
    (forall i x y c,
       1 <= i < NumMips 2 ->
       x < snd (GetMipInfo 2 i) -> y < snd (GetMipInfo 2 i) -> c < 4 ->
       (contents (image s')).[channel_index (fst (GetMipInfo 2 i))
                                             (snd (GetMipInfo 2 i)) x y c] =
       box_value (contents (image s')) (fst (GetMipInfo 2 (i - 1)))
                 (snd (GetMipInfo 2 (i - 1))) x y c).
Proof.
  assert (H1 : 2 <= max_width) by (by vm_compute).
  assert (H2 : TotalChannelsMipped 2
               <= N.of_nat (length (contents (image (State (uniform_vector 2 F32.zero) [])))))
    by (by vm_compute).
  split; [exact H1 |]. split; [exact H2 |].
  exact (MakeMips_levels 2 (State (uniform_vector 2 F32.zero) []) H1 H2).
Defined.

(** X13. A whole trial keeps the base image: the final buffer has
    [TotalChannelsMipped] elements and its level 0 is the gradient that
    [InitImage] wrote. *)
Theorem run_trial_keeps_gradient {T} `{Storage T} `{!StorageLaws T} W (t : T) :
  W <= max_init_width ->
  N.of_nat (length (contents t)) = TotalChannelsMipped W ->
  exists final,
    run_trial W t = Some final /\
    N.of_nat (length final) = TotalChannelsMipped W /\
    (forall x y c, x < W -> y < W -> c < 4 ->
       final.[channel_index 0 W x y c] = Some (gradient_channel x y c)).
Proof.
  intros HW Hlen.
  pose proof (init_width_bound W HW) as HW'.
  pose proof (TotalChannelsMipped_exact W HW') as Htot.
  destruct (InitImage_effect W (State t [])) as (s1 & Hrun1 & [Hl1 H0 _ _ _]);
    [done | simpl; lia |].
  destruct (MakeMips_effect W s1) as (s2 & Hrun2 & [Hl2 Hkeep _ _]);
    [done | rewrite Hl1; simpl; lia |].
  exists (contents (image s2)). unfold run_trial.
  rewrite (bind_Some _ _ _ _ _ Hrun1), Hrun2. split_and!; [done | |].
  - rewrite Hl2, Hl1. done.
  - intros x y c Hx Hy Hc.
    pose proof (pixel_index_bound W x y c Hx Hy Hc) as Hpix.
    unfold channel_index. rewrite N.add_0_l.
    rewrite Hkeep, H0 by done. by rewrite gradient_at_pixel.
Qed.

Lemma run_trial_keeps_gradient_witness :
  IMAGE_SIZE <= max_init_width /\
  N.of_nat (length (contents (fresh_vector IMAGE_SIZE))) = TotalChannelsMipped IMAGE_SIZE /\
  exists final,
    run_trial IMAGE_SIZE (fresh_vector IMAGE_SIZE) = Some final /\
    N.of_nat (length final) = TotalChannelsMipped IMAGE_SIZE /\
    (forall x y c, x < IMAGE_SIZE -> y < IMAGE_SIZE -> c < 4 ->
       final.[channel_index 0 IMAGE_SIZE x y c] = Some (gradient_channel x y c)).
Proof.
  split; [exact IMAGE_SIZE_init_width |].
  split; [exact (fresh_vector_length IMAGE_SIZE) |].
  exact (run_trial_keeps_gradient IMAGE_SIZE (fresh_vector IMAGE_SIZE)
           IMAGE_SIZE_init_width (fresh_vector_length IMAGE_SIZE)).
Defined.

(** X14. The defect of the box filter spares channel 0: on a buffer that
    holds no negative zero, channel 0 of every destination pixel is the
    sum of channel 0 of its four source pixels divided by four. *)
Theorem MakeMip_channel_0_average {T} `{Storage T} `{!StorageLaws T} W i (s : state T) x y :
  W <= max_width -> 1 <= i < SizeT.modulus ->
  fst (GetMipInfo W i) + snd (GetMipInfo W i) ^ 2 * 4
    <= N.of_nat (length (contents (image s))) ->
  x < snd (GetMipInfo W i) -> y < snd (GetMipInfo W i) ->
  (forall j, (contents (image s)).[j] <> Some (S754_zero true)) ->
  exists s',
    MakeMip W i s = Some (tt, s') /\
    (contents (image s')).[channel_index (fst (GetMipInfo W i))
                                          (snd (GetMipInfo W i)) x y 0] =
    box_average (contents (image s)) (fst (GetMipInfo W (i - 1)))
                (snd (GetMipInfo W (i - 1))) x y 0.
Proof.
  intros HW Hi Hlen Hx Hy Hnz.
  rewrite !GetMipInfo_exact in * by done. rewrite N.pow_2_r in Hlen.
  destruct (MakeMip_effect W i s HW Hi Hlen) as (s' & Hrun & [_ _ Hw _]).
  exists s'. split; [done |].
  rewrite Hw by (done || lia). by apply box_value_channel_0.
Qed.

Lemma MakeMip_channel_0_average_witness :
  2 <= max_width /\ 1 <= 1 < SizeT.modulus /\
  fst (GetMipInfo 2 1) + snd (GetMipInfo 2 1) ^ 2 * 4
    <= N.of_nat (length (contents (image (State (uniform_vector 2 (F32.of_N 7)) [])))) /\
  0 < snd (GetMipInfo 2 1) /\ 0 < snd (GetMipInfo 2 1) /\
  (forall j, (contents (image (State (uniform_vector 2 (F32.of_N 7)) []))).[j]
             <> Some (S754_zero true)) /\
  exists s',
    MakeMip 2 1 (State (uniform_vector 2 (F32.of_N 7)) []) = Some (tt, s') /\
    (contents (image s')).[channel_index (fst (GetMipInfo 2 1))
                                          (snd (GetMipInfo 2 1)) 0 0 0] =
    box_average (contents (image (State (uniform_vector 2 (F32.of_N 7)) [])))
                (fst (GetMipInfo 2 (1 - 1))) (snd (GetMipInfo 2 (1 - 1))) 0 0 0.
Proof.
  assert (H1 : 2 <= max_width) by (by vm_compute).
  assert (H2 : 1 <= 1 < SizeT.modulus) by (by vm_compute).
  assert (H3 : fst (GetMipInfo 2 1) + snd (GetMipInfo 2 1) ^ 2 * 4
               <= N.of_nat (length (contents (image (State (uniform_vector 2 (F32.of_N 7)) [])))))
    by (by vm_compute).
  assert (H4 : 0 < snd (GetMipInfo 2 1)) by (by vm_compute).
  assert (H5 : forall j, (contents (image (State (uniform_vector 2 (F32.of_N 7)) []))).[j]
                         <> Some (S754_zero true)).
  { intros j Hj. apply lookup_replicate_1 in Hj as [Hj _]. discriminate Hj. }
  split; [exact H1 |]. split; [exact H2 |]. split; [exact H3 |].
  split; [exact H4 |]. split; [exact H4 |]. split; [exact H5 |].
  exact (MakeMip_channel_0_average 2 1 (State (uniform_vector 2 (F32.of_N 7)) []) 0 0
           H1 H2 H3 H4 H4 H5).
Defined.

(** X15. [MakeMip] fills its level: every element of the region of the
    target level is channel [c] of one destination pixel [(x, y)] and
    holds, after the call, the value computed for that pixel and
    channel from the buffer as it was before the call. *)
Theorem MakeMip_fills_level {T} `{Storage T} `{!StorageLaws T} W i (s : state T) :
  W <= max_width -> 1 <= i < SizeT.modulus ->
  fst (GetMipInfo W i) + snd (GetMipInfo W i) ^ 2 * 4
    <= N.of_nat (length (contents (image s))) ->
  exists s',
    MakeMip W i s = Some (tt, s') /\
    forall j, level_region W i j ->
      exists x y c,
        x < snd (GetMipInfo W i) /\ y < snd (GetMipInfo W i) /\ c < 4 /\
        j = channel_index (fst (GetMipInfo W i)) (snd (GetMipInfo W i)) x y c /\
        is_Some ((contents (image s')).[j]) /\
        (contents (image s')).[j] =
        box_value (contents (image s)) (fst (GetMipInfo W (i - 1)))
                  (snd (GetMipInfo W (i - 1))) x y c.
Proof.
  intros HW Hi Hlen. unfold level_region.
  rewrite !GetMipInfo_exact in * by done. rewrite !N.pow_2_r in *.
  destruct (MakeMip_effect W i s HW Hi Hlen) as (s' & Hrun & [Hl _ Hw _]).
  exists s'. split; [done |]. intros j Hj.
  destruct (level_region_decode _ _ j Hj) as (x & y & c & Hx & Hy & Hc & ->).
  exists x, y, c. split_and!; [done.. | | by apply Hw].
  apply lookup_lt_is_Some. rewrite Hl. lia.
Qed.

Lemma MakeMip_fills_level_witness :
  2 <= max_width /\ 1 <= 1 < SizeT.modulus /\
  fst (GetMipInfo 2 1) + snd (GetMipInfo 2 1) ^ 2 * 4
    <= N.of_nat (length (contents (image (State (uniform_vector 2 F32.zero) [])))) /\
  exists s',
    MakeMip 2 1 (State (uniform_vector 2 F32.zero) []) = Some (tt, s') /\
    forall j, level_region 2 1 j ->
      exists x y c,
        x < snd (GetMipInfo 2 1) /\ y < snd (GetMipInfo 2 1) /\ c < 4 /\
        j = channel_index (fst (GetMipInfo 2 1)) (snd (GetMipInfo 2 1)) x y c /\
        is_Some ((contents (image s')).[j]) /\
        (contents (image s')).[j] =
        box_value (contents (image (State (uniform_vector 2 F32.zero) [])))
                  (fst (GetMipInfo 2 (1 - 1))) (snd (GetMipInfo 2 (1 - 1))) x y c.
Proof.
  assert (H1 : 2 <= max_width) by (by vm_compute).
  assert (H2 : 1 <= 1 < SizeT.modulus) by (by vm_compute).
  assert (H3 : fst (GetMipInfo 2 1) + snd (GetMipInfo 2 1) ^ 2 * 4
               <= N.of_nat (length (contents (image (State (uniform_vector 2 F32.zero) [])))))
    by (by vm_compute).
  split; [exact H1 |]. split; [exact H2 |]. split; [exact H3 |].
  exact (MakeMip_fills_level 2 1 (State (uniform_vector 2 F32.zero) []) H1 H2 H3).
Defined.

(** X16. What [MakeMip] stores depends on the source level only: from
    two buffers that agree on the region of level [i - 1], whatever they
    hold elsewhere and whatever their storage, the two calls for level
    [i] leave the same values in the region of level [i]. *)
Theorem MakeMip_depends_on_source_level {T1 T2}
    `{Storage T1} `{!StorageLaws T1} `{Storage T2} `{!StorageLaws T2}
    W i (s1 : state T1) (s2 : state T2) :
  W <= max_width -> 1 <= i < SizeT.modulus ->
  fst (GetMipInfo W i) + snd (GetMipInfo W i) ^ 2 * 4
    <= N.of_nat (length (contents (image s1))) ->
  fst (GetMipInfo W i) + snd (GetMipInfo W i) ^ 2 * 4
    <= N.of_nat (length (contents (image s2))) ->
  (forall j, level_region W (i - 1) j ->
     (contents (image s1)).[j] = (contents (image s2)).[j]) ->
  exists s1' s2',
    MakeMip W i s1 = Some (tt, s1') /\
    MakeMip W i s2 = Some (tt, s2') /\
    forall j, level_region W i j ->
      (contents (image s1')).[j] = (contents (image s2')).[j].
Proof.
  intros HW Hi Hlen1 Hlen2. unfold level_region.
  rewrite !GetMipInfo_exact in * by done. rewrite !N.pow_2_r in *.
  intros Hagree.
  destruct (MakeMip_effect W i s1 HW Hi Hlen1) as (s1' & Hrun1 & [_ _ Hw1 _]).
  destruct (MakeMip_effect W i s2 HW Hi Hlen2) as (s2' & Hrun2 & [_ _ Hw2 _]).
  exists s1', s2'. split; [done |]. split; [done |]. intros j Hj.
  destruct (level_region_decode _ _ j Hj) as (x & y & c & Hx & Hy & Hc & ->).
  rewrite Hw1, Hw2 by done.
  destruct (mip_info_pred W i ltac:(lia)) as [_ Hhalf].
  by apply (box_value_agree _ _ _ _ (snd (mip_info W i))).
Qed.

Lemma MakeMip_depends_on_source_level_witness :
  2 <= max_width /\ 1 <= 1 < SizeT.modulus /\
  fst (GetMipInfo 2 1) + snd (GetMipInfo 2 1) ^ 2 * 4
    <= N.of_nat (length (contents (image (State (uniform_vector 2 F32.zero) [])))) /\
  fst (GetMipInfo 2 1) + snd (GetMipInfo 2 1) ^ 2 * 4
    <= N.of_nat (length (contents (image (State (CArray 20 (fun k => F32.of_N (k / 16))) [])))) /\
  (forall j, level_region 2 (1 - 1) j ->
     (contents (image (State (uniform_vector 2 F32.zero) []))).[j] =
     (contents (image (State (CArray 20 (fun k => F32.of_N (k / 16))) []))).[j]) /\
  exists s1' s2',
    MakeMip 2 1 (State (uniform_vector 2 F32.zero) []) = Some (tt, s1') /\
    MakeMip 2 1 (State (CArray 20 (fun k => F32.of_N (k / 16))) []) = Some (tt, s2') /\
    forall j, level_region 2 1 j ->
      (contents (image s1')).[j] = (contents (image s2')).[j].
Proof.
  assert (H1 : 2 <= max_width) by (by vm_compute).
  assert (H2 : 1 <= 1 < SizeT.modulus) by (by vm_compute).
  assert (H3 : fst (GetMipInfo 2 1) + snd (GetMipInfo 2 1) ^ 2 * 4
               <= N.of_nat (length (contents (image (State (uniform_vector 2 F32.zero) [])))))
    by (by vm_compute).
  assert (H4 : fst (GetMipInfo 2 1) + snd (GetMipInfo 2 1) ^ 2 * 4
               <= N.of_nat (length (contents (image
                    (State (CArray 20 (fun k => F32.of_N (k / 16))) [])))))
    by (by vm_compute).
  assert (H5 : forall j, level_region 2 (1 - 1) j ->
     (contents (image (State (uniform_vector 2 F32.zero) []))).[j] =
     (contents (image (State (CArray 20 (fun k => F32.of_N (k / 16))) []))).[j]).
  { intros j [_ Hj]. change (j < 16) in Hj.
    cbn [image contents vector_storage carray_storage uniform_vector vector_elems].
    rewrite (replicate_lookup (TotalChannelsMipped 2) F32.zero j)
      by (change (TotalChannelsMipped 2) with 20; lia).
    rewrite carray_contents_lookup. cbn [block_len cell].
    rewrite decide_True by lia.
    by rewrite N2Nat.id, N.div_small. }
  split; [exact H1 |]. split; [exact H2 |]. split; [exact H3 |].
  split; [exact H4 |]. split; [exact H5 |].
  exact (MakeMip_depends_on_source_level 2 1 (State (uniform_vector 2 F32.zero) [])
           (State (CArray 20 (fun k => F32.of_N (k / 16))) []) H1 H2 H3 H4 H5).
Defined.

(** ** The tail of a chain, and the shortest chains *)

(** X17. The levels from [i] on are the chain of an image of width
    [W / 2^i]: the offset of level [i] plus the channel count of that
    smaller chain is the channel count of the whole chain. *)
Theorem GetMipInfo_tail_chain W i :
  W <= max_width ->
  fst (GetMipInfo W i) + TotalChannelsMipped (snd (GetMipInfo W i))
    = TotalChannelsMipped W.
Proof.
  intros HW. rewrite GetMipInfo_exact by done. rewrite mip_info_width.
  assert (Hle : W / 2 ^ i <= max_width).
  { assert (Hnz : 2 ^ i <> 0) by (apply N.pow_nonzero; lia).
    etransitivity; [| exact HW]. apply N.Div0.div_le_upper_bound. nia. }
  rewrite !TotalChannelsMipped_exact by done. apply mip_info_offset.
Qed.

Lemma GetMipInfo_tail_chain_witness :
  IMAGE_SIZE <= max_width /\
  fst (GetMipInfo IMAGE_SIZE 3) + TotalChannelsMipped (snd (GetMipInfo IMAGE_SIZE 3))
    = TotalChannelsMipped IMAGE_SIZE.
Proof.
  split; [exact IMAGE_SIZE_width |].
  exact (GetMipInfo_tail_chain IMAGE_SIZE 3 IMAGE_SIZE_width).
Defined.

(** X18. For base width 0 or 1 there is no level to generate:
    [MakeMips] returns at once, on any buffer, with the buffer and the
    access log as they were. *)
Theorem MakeMips_single_level {T} `{Storage T} W (s : state T) :
  W <= 1 -> MakeMips W s = Some (tt, s).
Proof.
  intros HW. unfold MakeMips, for_range.
  assert (HN : NumMips W <= 1).
  { assert (W = 0 \/ W = 1) as [-> | ->] by lia; by vm_compute. }
  replace (N.to_nat (NumMips W - 1)) with 0%nat by lia. reflexivity.
Qed.

Lemma MakeMips_single_level_witness :
  1 <= 1 /\ MakeMips 1 (State (StdVector []) []) = Some (tt, State (StdVector []) []).
Proof.
  assert (H : 1 <= 1) by (by vm_compute).
  split; [exact H |]. exact (MakeMips_single_level 1 (State (StdVector []) []) H).
Defined.
